(* Verification of the ensembling core of commonlitreadabilityprize:
   netflix and create_folds of submissions/submission_netflix.py.

   Numbers are taken in an ordered field (exact arithmetic, the usual
   idealisation of float64); arrays are lists with their shape written out,
   and the numpy, pandas and scikit-learn routines the two functions call
   are embedded with the shape checks, the branches and the exceptions
   they perform. *)

From HB Require Import structures.
From mathcomp Require Import boot order algebra.
From Stdlib Require ClassicalEpsilon String Ascii.
Import String.StringSyntax.
Delimit Scope string_scope with string.

Set Implicit Arguments.
Unset Strict Implicit.
Unset Printing Implicit Defensive.

Import Order.TTheory GRing.Theory Num.Theory.
Local Open Scope ring_scope.

(* ------------------------------------------------------------------ *)
(* The Moore-Penrose inverse and np.linalg.pinv(a, rcond=1e-15).       *)
(* ------------------------------------------------------------------ *)

Section MoorePenrose.

Variable R : realFieldType.

(* The four Penrose equations, over a real field (transpose for adjoint). *)
Definition penrose m n (A : 'M[R]_(m, n)) (B : 'M[R]_(n, m)) : Prop :=
  [/\ A *m B *m A = A, B *m A *m B = B,
      (A *m B)^T = A *m B & (B *m A)^T = B *m A].

(* From a full-rank factorisation A = C *m W (C with independent columns,
   W with independent rows): W^T (W W^T)^-1 (C^T C)^-1 C^T. *)
Definition mp_inverse m n (A : 'M[R]_(m, n)) : 'M[R]_(n, m) :=
  let C := col_base A in
  let W := row_base A in
  W^T *m invmx (W *m W^T) *m invmx (C^T *m C) *m C^T.

(* The squared length of a column and the sum of the squared entries of a
   matrix. *)
Definition norm2 n (u : 'cV[R]_n) : R := \sum_i u i 0 ^+ 2.

Definition frob2 m n (A : 'M[R]_(m, n)) : R := \sum_i \sum_j A i j ^+ 2.

(* numpy/linalg/linalg.py, pinv:
     u, s, vt = svd(a, full_matrices=False)
     cutoff = rcond * amax(s)
     large = s > cutoff
     s = divide(1, s, where=large, out=s);  s[~large] = 0
     res = matmul(transpose(vt), multiply(s[..., newaxis], transpose(u)))
   so the result is the Moore-Penrose inverse of the part of a that lies
   on the singular directions with s > rcond * max s; the other directions
   are dropped. *)

(* the default rcond = 1e-15 *)
Definition rcond : R := (10%:R ^+ 15)^-1.

(* P is the orthogonal projector onto the right singular directions that
   pinv keeps. The singular values are written without roots: a direction
   v has |A v| / |v| for singular value, and the largest singular value is
   the largest |A z| / |z|. P is symmetric and idempotent and a function
   of A^T A (it commutes with all that commutes with A^T A); on its range
   every direction lies above the cutoff, s > rcond * s_max, and on the
   range of 1 - P every direction lies at or below it. *)
Definition keeps m n (A : 'M[R]_(m, n)) (P : 'M[R]_n) : Prop :=
  [/\ P^T = P, P *m P = P,
      forall M : 'M[R]_n,
        M *m (A^T *m A) = A^T *m A *m M -> M *m P = P *m M,
      forall x z : 'cV[R]_n, P *m x != 0 -> z != 0 ->
        rcond ^+ 2 * norm2 (A *m z) * norm2 (P *m x)
        < norm2 (A *m (P *m x)) * norm2 z
    & forall x : 'cV[R]_n, (1%:M - P) *m x != 0 ->
        exists2 z : 'cV[R]_n, z != 0 &
          norm2 (A *m ((1%:M - P) *m x)) * norm2 z
          <= rcond ^+ 2 * norm2 (A *m z) * norm2 ((1%:M - P) *m x)].

(* The projector of A. It is unique when there is one (lemma keeps_uniq),
   and there is one whenever the result of pinv has its entries in R,
   which is always so over the reals; where R lacks it nothing is
   dropped. No algorithm is given: the singular values of a matrix of R
   need not lie in R. *)
Definition kept m n (A : 'M[R]_(m, n)) : 'M[R]_n :=
  match ClassicalEpsilon.excluded_middle_informative
          (exists P, keeps A P) with
  | left ex =>
      sval (ClassicalEpsilon.constructive_indefinite_description _ ex)
  | right _ => 1%:M
  end.

(* np.linalg.pinv on a matrix *)
Definition pinv_mx m n (A : 'M[R]_(m, n)) : 'M[R]_(n, m) :=
  mp_inverse (A *m kept A).

(* No nonzero singular value of A lies at or below the cutoff: pinv then
   drops nothing and returns the Moore-Penrose inverse (lemma
   pinv_mx_well). *)
Definition well_conditioned m n (A : 'M[R]_(m, n)) : Prop :=
  forall x z : 'cV[R]_n, mp_inverse A *m A *m x != 0 -> z != 0 ->
    rcond ^+ 2 * norm2 (A *m z) * norm2 (mp_inverse A *m A *m x)
    < norm2 (A *m x) * norm2 z.

End MoorePenrose.

(* ------------------------------------------------------------------ *)
(* Python exceptions and the result of a call that may raise.          *)
(* ------------------------------------------------------------------ *)

Inductive exn : Type := IndexError | ValueError | OverflowError.

Inductive result (T : Type) : Type :=
  | Ok of T
  | Raise of exn.

Arguments Raise {T} e.

Definition bind T U (c : result T) (k : T -> result U) : result U :=
  match c with
  | Ok x => k x
  | Raise e => Raise e
  end.

Declare Scope result_scope.
Delimit Scope result_scope with res.
Notation "'do' x <- c ; k" := (bind c (fun x => k))
  (at level 200, x name, c at level 100, k at level 200,
   right associativity) : result_scope.
Local Open Scope result_scope.

Definition returns T (c : result T) : bool :=
  if c is Ok _ then true else false.

Definition raises T (c : result T) : bool := ~~ returns c.

(* ------------------------------------------------------------------ *)
(* The part of numpy that netflix uses.                                *)
(* ------------------------------------------------------------------ *)

Module Np.
Section Arrays.

Variable R : realFieldType.

(* A 1-D array is a list; a 2-D array carries its shape. *)
Record array2 : Type :=
  Array2 { shape0 : nat; shape1 : nat; item : nat -> nat -> R }.

(* np.stack(ps): the arrays become the rows; they must agree in shape. *)
Definition stack (ps : seq (seq R)) : result array2 :=
  match ps with
  | [::] => Raise ValueError
  | p0 :: _ =>
      if all (fun p => size p == size p0) ps
      then Ok (Array2 (size ps) (size p0)
                 (fun i j => nth 0 (nth [::] ps i) j))
      else Raise ValueError
  end.

(* A.T *)
Definition transpose (A : array2) : array2 :=
  Array2 (shape1 A) (shape0 A) (fun i j => item A j i).

(* A ** 2 *)
Definition square (A : array2) : array2 :=
  Array2 (shape0 A) (shape1 A) (fun i j => item A i j ^+ 2).

(* A.sum(axis=0) *)
Definition sum_axis0 (A : array2) : seq R :=
  mkseq (fun j => \sum_(0 <= i < shape0 A) item A i j) (shape1 A).

(* Broadcasting of one dimension: equal extents, or one of them is 1. *)
Definition broadcast_dim (a b : nat) : result nat :=
  if a == b then Ok a
  else if a == 1%N then Ok b
  else if b == 1%N then Ok a
  else Raise ValueError.

(* Index into a dimension of extent d, stretched when d = 1. *)
Definition bidx (d i : nat) : nat := if d == 1%N then 0%N else i.

Definition broadcast1 (f : R -> R -> R) (a b : seq R) : result (seq R) :=
  do n <- broadcast_dim (size a) (size b);
  Ok (mkseq (fun i => f (nth 0 a (bidx (size a) i))
                        (nth 0 b (bidx (size b) i))) n).

Definition broadcast2 (f : R -> R -> R) (A B : array2) : result array2 :=
  do r <- broadcast_dim (shape0 A) (shape0 B);
  do c <- broadcast_dim (shape1 A) (shape1 B);
  Ok (Array2 r c
        (fun i j => f (item A (bidx (shape0 A) i) (bidx (shape1 A) j))
                      (item B (bidx (shape0 B) i) (bidx (shape1 B) j)))).

(* scalar + a, scalar * a, scalar * A *)
Definition scalar_add (c : R) (a : seq R) : seq R := [seq c + x | x <- a].
Definition scalar_mul (c : R) (a : seq R) : seq R := [seq c * x | x <- a].
Definition scalar_mul2 (c : R) (A : array2) : array2 :=
  Array2 (shape0 A) (shape1 A) (fun i j => c * item A i j).

(* np.eye(m) *)
Definition eye (m : nat) : array2 :=
  Array2 m m (fun i j => if i == j then 1 else 0).

(* A.dot(B), 2-D by 2-D and 2-D by 1-D: the inner extents must agree. *)
Definition dot (A B : array2) : result array2 :=
  if shape1 A == shape0 B
  then Ok (Array2 (shape0 A) (shape1 B)
             (fun i j => \sum_(0 <= k < shape1 A) item A i k * item B k j))
  else Raise ValueError.

Definition dotv (A : array2) (v : seq R) : result (seq R) :=
  if shape1 A == size v
  then Ok (mkseq (fun i => \sum_(0 <= k < shape1 A) item A i k * nth 0 v k)
             (shape0 A))
  else Raise ValueError.

(* np.linalg.pinv with its default rcond, on a 2-D array (rounding is not
   modelled). *)
Definition to_mx (A : array2) : 'M[R]_(shape0 A, shape1 A) :=
  \matrix_(i, j) item A i j.

Definition of_mx r c (M : 'M[R]_(r, c)) : array2 :=
  Array2 r c
    (fun i j => match insub i, insub j with
                | Some i', Some j' => M i' j'
                | _, _ => 0
                end).

Definition pinv (A : array2) : array2 := of_mx (pinv_mx (to_mx A)).

End Arrays.
End Np.

(* ------------------------------------------------------------------ *)
(* netflix (submission_netflix.py, lines 377-402).                     *)
(* ------------------------------------------------------------------ *)

Section Netflix.

Variable R : realFieldType.

Definition netflix (es : seq R) (ps : seq (seq R)) (e0 l : R)
  : result (seq R * seq R) :=
  let m := size es in
  do p0 <- (if ps is p :: _ then Ok p else Raise IndexError);
  let n := size p0 in
  do S <- Np.stack ps;
  let X := Np.transpose S in
  do d <- Np.broadcast1 (fun a b => a - b)
            (Np.scalar_add (n%:R * e0 ^+ 2) (Np.sum_axis0 (Np.square X)))
            (Np.scalar_mul n%:R [seq e ^+ 2 | e <- es]);
  let pTy := Np.scalar_mul 2^-1 d in
  do G <- Np.dot (Np.transpose X) X;
  do A <- Np.broadcast2 +%R G (Np.scalar_mul2 (l * n%:R) (Np.eye R m));
  do w <- Np.dotv (Np.pinv A) pTy;
  do out <- Np.dotv X w;
  Ok (out, w).

End Netflix.

(* The two components of what netflix returns, when it returns. *)
Definition blend T (r : result (seq T * seq T)) : option (seq T) :=
  if r is Ok (out, _) then Some out else None.

Definition weights T (r : result (seq T * seq T)) : option (seq T) :=
  if r is Ok (_, w) then Some w else None.

(* Every prediction vector with its entries given twice over. *)
Definition duplicate T (ps : seq (seq T)) : seq (seq T) :=
  [seq p ++ p | p <- ps].

(* The examples of every prediction vector taken in the order s. *)
Definition reorder (R : realFieldType) (s : seq nat) (ps : seq (seq R))
  : seq (seq R) :=
  [seq [seq nth 0 p i | i <- s] | p <- ps].

(* The entry at index i of a returned array. *)
Definition oentry (R : realFieldType) (i : nat) (o : option (seq R))
  : option R :=
  omap (fun v => nth 0 v i) o.

(* f l is defined and tends to L as the ridge constant l tends to 0
   through positive values. *)
Definition tends_to_as_lambda_vanishes (R : realFieldType)
    (f : R -> option R) (L : R) : Prop :=
  forall eps, 0 < eps ->
    exists2 delta, 0 < delta &
      forall l, 0 < l < delta -> exists2 v, f l = Some v & `|v - L| < eps.

(* The weight of the 1-by-1 ridge system of a single model p. *)
Definition single_weight (R : realFieldType) (p : seq R) (e e0 l : R) : R :=
  let n := size p in
  let s := \sum_(x <- p) x ^+ 2 in
  (s + l * n%:R)^-1 * (2^-1 * (n%:R * e0 ^+ 2 + s - n%:R * e ^+ 2)).

(* The result the specification describes, in matrix terms: X is the
   n-by-m matrix whose columns are the prediction vectors. *)

Section NetflixSpec.

Variable R : realFieldType.
Variables (m n : nat) (es : seq R) (ps : seq (seq R)) (e0 l : R).

Definition spec_X : 'M[R]_(n, m) := \matrix_(i, j) nth 0 (nth [::] ps j) i.

Definition spec_pTy : 'cV[R]_m :=
  \col_i (2^-1 * (n%:R * e0 ^+ 2 + \sum_(x <- nth [::] ps i) x ^+ 2
                  - n%:R * nth 0 es i ^+ 2)).

Definition spec_w : 'cV[R]_m :=
  pinv_mx (spec_X^T *m spec_X + (l * n%:R) *: 1%:M) *m spec_pTy.

Definition spec_blend : 'cV[R]_n := spec_X *m spec_w.

End NetflixSpec.

(* A column vector as a 1-D array. *)
Definition seq_of_col (R : realFieldType) k (v : 'cV[R]_k) : seq R :=
  [seq v i 0 | i <- enum 'I_k].

(* ------------------------------------------------------------------ *)
(* numpy.random.RandomState, as far as the callees draw from it.       *)
(* ------------------------------------------------------------------ *)

Record rng_model : Type := RngModel {
  rng_state : Type;
  (* RandomState(seed) *)
  seeded : nat -> rng_state;
  (* RandomState.permutation(n): a permutation of range(n), next state *)
  permutation : rng_state -> nat -> seq nat * rng_state;
  permutationP : forall g n, perm_eq (permutation g n).1 (iota 0 n)
}.

Section Random.

Variable G : rng_model.

(* check_random_state: a fresh generator for an int seed, the global one
   for None. *)
Definition check_random_state (random_state : option nat) (g : rng_state G)
  : rng_state G :=
  if random_state is Some s then seeded G s else g.

(* The global generator after a callee drew from check_random_state's
   generator: it moves only when no seed was given. *)
Definition global_after (random_state : option nat) (g g' : rng_state G)
  : rng_state G :=
  if random_state is Some _ then g else g'.

(* rows.take(locs) *)
Definition take_rows T (rows : seq T) (locs : seq nat) : seq T :=
  flatten [seq take 1 (drop i rows) | i <- locs].

(* RandomState.shuffle(a) *)
Definition shuffle T (g : rng_state G) (a : seq T) : seq T * rng_state G :=
  let: (locs, g') := permutation g (size a) in (take_rows a locs, g').

End Random.

(* ------------------------------------------------------------------ *)
(* pandas: DataFrame.sample(frac=1) and pd.cut(x, bins, labels=False), *)
(* after pandas/core/generic.py and pandas/core/reshape/tile.py (1.x). *)
(* Targets are numbers of the field: there is no NaN among them.       *)
(* ------------------------------------------------------------------ *)

Module Pd.
Section Pandas.

Variable G : rng_model.
Variable R : realFieldType.

(* data.sample(frac=1, random_state=random_state).reset_index(drop=True):
   the rows in a drawn order, renumbered 0..N-1. *)
Definition sample T (g : rng_state G) (random_state : option nat)
    (data : seq T) : seq T * rng_state G :=
  let: (rows, g') := shuffle (check_random_state random_state g) data in
  (rows, global_after random_state g g').

(* np.linspace(start, stop, num) for num = div + 1 >= 2 *)
Definition linspace (start stop : R) (div : nat) : seq R :=
  [seq start + i%:R * ((stop - start) / div%:R) | i <- iota 0 div.+1].

(* bins.searchsorted(x, side="left"): the edges strictly below x *)
Definition searchsorted_left (edges : seq R) (x : R) : nat :=
  count (fun b => b < x) edges.

(* _bins_to_cuts with right=True, labels=False: ids - 1, and NaN (None)
   where ids is 0 or len(bins). *)
Definition bins_to_cuts (x edges : seq R) : seq (option nat) :=
  [seq let ids := searchsorted_left edges v in
       if (ids == 0%N) || (ids == size edges) then None else Some ids.-1
  | v <- x].

(* The bin edges pd.cut derives from the range [mn, mx] of the data: the
   range is widened by 0.1% on both sides when it is a single point, and
   otherwise the lowest edge is lowered by 0.1% of the range. *)
Definition bin_edges (mn mx : R) (bins : nat) : seq R :=
  if mn == mx then
    let mn' := mn - (if mn != 0 then 1000%:R^-1 * `|mn| else 1000%:R^-1) in
    let mx' := mx + (if mx != 0 then 1000%:R^-1 * `|mx| else 1000%:R^-1) in
    linspace mn' mx' bins
  else
    let e := linspace mn mx bins in
    let adj := (mx - mn) * 1000%:R^-1 in
    (head 0 e - adj) :: behead e.

Definition cut (x : seq R) (bins : nat) : result (seq (option nat)) :=
  if (bins < 1)%N then Raise ValueError
  else if x is x0 :: x' then
    let mn := foldr Order.min x0 x' in
    let mx := foldr Order.max x0 x' in
    Ok (bins_to_cuts x (bin_edges mn mx bins))
  else Raise ValueError.

End Pandas.
End Pd.

(* ------------------------------------------------------------------ *)
(* scikit-learn: StratifiedKFold(n_splits, shuffle=True, random_state) *)
(* after sklearn/model_selection/_split.py (0.22 and later); the       *)
(* warning for a class smaller than n_splits has no effect and is left *)
(* out.                                                                *)
(* ------------------------------------------------------------------ *)

Module Sk.
Section StratifiedKFold.

Variable G : rng_model.

(* The classes of y in order of first appearance, and y encoded by them. *)
Definition classes (y : seq nat) : seq nat := rev (undup (rev y)).

Definition y_encoded (y : seq nat) : seq nat :=
  [seq index c (classes y) | c <- y].

(* np.bincount(a, minlength=n) for n > max a *)
Definition bincount (a : seq nat) (n : nat) : seq nat :=
  [seq count_mem c a | c <- iota 0 n].

(* a[i::k] *)
Definition stride T (i k : nat) (a : seq T) : seq T :=
  mask [seq (j %% k)%N == i | j <- iota 0 (size a)] a.

(* allocation[i][c]: members of class c that fold i receives *)
Definition allocation (n_splits : nat) (y_order : seq nat) (i c : nat) : nat :=
  count_mem c (stride i n_splits y_order).

(* np.arange(n_splits).repeat(allocation[:, c]) *)
Definition folds_for_class (n_splits : nat) (y_order : seq nat) (c : nat)
  : seq nat :=
  flatten [seq nseq (allocation n_splits y_order i c) i | i <- iota 0 n_splits].

(* a[m] = vals for a boolean mask m *)
Fixpoint assign_mask (m : bitseq) (vals a : seq nat) : seq nat :=
  match m, a with
  | b :: m', x :: a' =>
      if b then head 0%N vals :: assign_mask m' (behead vals) a'
      else x :: assign_mask m' vals a'
  | _, _ => a
  end.

Definition setitem_mask (m : bitseq) (vals a : seq nat) : result (seq nat) :=
  if size vals == count id m then Ok (assign_mask m vals a)
  else Raise ValueError.

(* the loop over the classes of _make_test_folds *)
Fixpoint assign_classes (n_splits : nat) (y_enc y_order : seq nat)
    (cs : seq nat) (g : rng_state G) (test_folds : seq nat)
  : result (seq nat * rng_state G) :=
  match cs with
  | [::] => Ok (test_folds, g)
  | c :: cs' =>
      let: (folds, g') := shuffle g (folds_for_class n_splits y_order c) in
      do tf <- setitem_mask [seq e == c | e <- y_enc] folds test_folds;
      assign_classes n_splits y_enc y_order cs' g' tf
  end.

Definition make_test_folds (n_splits : nat) (g : rng_state G) (y : seq nat)
  : result (seq nat * rng_state G) :=
  let y_enc := y_encoded y in
  let n_classes := size (classes y) in
  let y_counts := bincount y_enc n_classes in
  if all (fun c => (c < n_splits)%N) y_counts then Raise ValueError
  else
    let y_order := sort leq y_enc in
    assign_classes n_splits y_enc y_order (iota 0 n_classes) g
      (nseq (size y) 0%N).

(* BaseCrossValidator.split over _iter_test_masks *)
Definition iter_splits (n_splits n_samples : nat) (test_folds : seq nat)
  : seq (seq nat * seq nat) :=
  [seq let test_mask := [seq f == i | f <- test_folds] in
       (mask [seq ~~ b | b <- test_mask] (iota 0 n_samples),
        mask test_mask (iota 0 n_samples))
  | i <- iota 0 n_splits].

(* StratifiedKFold(n_splits, shuffle=True, random_state).split(X, y),
   X with n_samples rows, y possibly holding NaN (None). *)
Definition split (g : rng_state G) (random_state : option nat)
    (n_splits n_samples : nat) (y : seq (option nat))
  : result (seq (seq nat * seq nat)) :=
  if (n_splits <= 1)%N then Raise ValueError
  else if size y != n_samples then Raise ValueError
  else if (n_samples < n_splits)%N then Raise ValueError
  else if ~~ all isSome y then Raise ValueError
  else
    do r <- make_test_folds n_splits (check_random_state random_state g)
              (pmap id y);
    Ok (iter_splits n_splits n_samples r.1).

End StratifiedKFold.
End Sk.

(* ------------------------------------------------------------------ *)
(* create_folds (submission_netflix.py, lines 405-414).                *)
(* ------------------------------------------------------------------ *)

Section CreateFolds.

Variable G : rng_model.
Variable R : realFieldType.
Variable T : Type.

(* len(data) after line 406 and int(np.floor(1 + np.log2(len(data)))):
   log2 0 is -inf, which int() refuses. *)
Definition num_bins (N : nat) : result nat :=
  if N == 0%N then Raise OverflowError else Ok (trunc_log 2 N).+1.

(* The local table after line 408: the shuffled rows, each with the entry
   of pd.cut(y, ...) at its position. *)
Definition binned_table (g : rng_state G) (data : seq T) (y : seq R)
    (random_state : option nat)
  : result (seq (T * option nat) * rng_state G) :=
  let: (rows, g1) := Pd.sample g random_state data in
  do nb <- num_bins (size rows);
  do bins <- Pd.cut y nb;
  if size bins == size rows then Ok (zip rows bins, g1)
  else Raise ValueError.

Definition create_folds (g : rng_state G) (data : seq T) (y : seq R)
    (n_splits : nat) (random_state : option nat)
  : result (seq (seq nat * seq nat)) :=
  do tg <- binned_table g data y random_state;
  Sk.split tg.2 random_state n_splits (size tg.1) (unzip2 tg.1).

End CreateFolds.

(* In the loop of _make_test_folds: the positions whose class is among
   the classes done hold a fold index below k. *)
Definition treated (k : nat) (ye : seq nat) (done : pred nat) (tf : seq nat)
  : bool :=
  all (fun p => done p.1 ==> (p.2 < k)%N) (zip ye tf).

(* The strata create_folds balances: the bins of the targets that hold a
   label, for a table of N rows. *)
Definition strata (R : realFieldType) (y : seq R) (N : nat) : seq nat :=
  if Pd.cut y (trunc_log 2 N).+1 is Ok bins then pmap id bins else [::].

(* A generator whose every draw is the reversed order, for examples. *)
Lemma reversed_perm (g : unit) n : perm_eq (rev (iota 0 n), g).1 (iota 0 n).
Proof. by rewrite /= perm_rev. Qed.

Definition reversing_rng : rng_model :=
  @RngModel unit (fun _ => tt) (fun g n => (rev (iota 0 n), g)) reversed_perm.

(* ------------------------------------------------------------------ *)
(* Inputs of the worked examples, over the rationals.                  *)
(* ------------------------------------------------------------------ *)

Definition ex_one_model : seq (seq rat) := [:: [:: 1]].
Definition ex_rows2 : seq nat := [:: 0; 1]%N.
Definition ex_rows4 : seq nat := [:: 0; 1; 2; 3]%N.
Definition ex_y2 : seq rat := [:: 0; 1].
Definition ex_y4 : seq rat := [:: 0; 0; 0; 1].
Definition ex_y4' : seq rat := [:: 0; 0; 1; 1].
Definition ex_folds4 : seq (seq nat * seq nat) :=
  [:: ([:: 0; 3], [:: 1; 2]); ([:: 1; 2], [:: 0; 3])]%N.

(* ------------------------------------------------------------------ *)
(* What the docstring of netflix asks of its arguments: es are the     *)
(* RMSEs of the predictions and e0 that of the all-zero prediction,    *)
(* against targets y (make_predictions computes them at line 462 with  *)
(* sklearn's mean_squared_error).                                      *)
(* ------------------------------------------------------------------ *)

Section Rmse.

Variable R : realFieldType.

(* mean_squared_error(p, y) *)
Definition mse (p y : seq R) : R :=
  (\sum_(0 <= k < size y) (nth 0 p k - nth 0 y k) ^+ 2) / (size y)%:R.




(* A 1-D array as a column, and the inner product of columns. *)
Definition col_of_seq n (v : seq R) : 'cV[R]_n := \col_i nth 0 v i.

Definition dotp n (u v : 'cV[R]_n) : R := \sum_i u i 0 * v i 0.


(* The m-by-m matrix whose column j is the unit column at s_j: X times it
   is X with its columns taken in the order s. *)
Definition select_mx (m : nat) (s : seq nat) : 'M[R]_m :=
  \matrix_(i, j) (val i == nth 0%N s j)%:R.

End Rmse.

(* ------------------------------------------------------------------ *)
(* add_weight_decay (submission_netflix.py, lines 283-296): the        *)
(* optimizer's two parameter groups.                                   *)
(* ------------------------------------------------------------------ *)

Section WeightDecay.

Variable R : realFieldType.
Variable char : eqType.                 (* the characters of a name *)
Variable param : Type.                  (* a parameter tensor *)
Variable requires_grad : param -> bool.
Variable shape : param -> seq nat.

Record param_group : Type :=
  ParamGroup { params : seq param; weight_decay : R }.

(* s in name, for two strings *)
Definition str_in (s name : seq char) : bool := infix s name.

(* len(param.shape) == 1 or any(s in name for s in skip_list) *)
Definition exempt (skip_list : seq (seq char)) (np : seq char * param)
  : bool :=
  (size (shape np.2) == 1%N) || has (fun s => str_in s np.1) skip_list.

(* One turn of the loop over model.named_parameters(), on the lists
   (decay, no_decay). *)
Definition add_weight_decay_step (skip_list : seq (seq char))
    (acc : seq param * seq param) (np : seq char * param)
  : seq param * seq param :=
  if ~~ requires_grad np.2 then acc
  else if exempt skip_list np then (acc.1, rcons acc.2 np.2)
  else (rcons acc.1 np.2, acc.2).

Definition add_weight_decay (named_parameters : seq (seq char * param))
    (weight_decay : R) (skip_list : seq (seq char)) : seq param_group :=
  let acc := foldl (add_weight_decay_step skip_list) ([::], [::])
               named_parameters in
  [:: ParamGroup acc.2 0; ParamGroup acc.1 weight_decay].

End WeightDecay.

(* A Python string as the list of its code points, and the skip list that
   configure_optimizers passes to add_weight_decay (lines 259-263). *)
Fixpoint code_points (s : String.string) : seq nat :=
  match s with
  | String.EmptyString => [::]
  | String.String c s' => Ascii.nat_of_ascii c :: code_points s'
  end.

Definition configure_optimizers_skip_list : seq (seq nat) :=
  [seq code_points s
  | s <- [:: "bias"%string; "LayerNorm.bias"%string;
             "LayerNorm.weight"%string]].

(* ------------------------------------------------------------------ *)
(* CommonLitModel.optimizer_step (lines 236-256): the learning rate    *)
(* written into the parameter groups before optimizer.step. A group is *)
(* its lr entry and its other entries.                                 *)
(* ------------------------------------------------------------------ *)

Section WarmUp.

Variable R : realFieldType.
Variable T : Type.

Record hparams : Type := HParams { lr : R; warmup : nat }.

Definition optimizer_step (hp : hparams) (global_step : nat)
    (param_groups : seq (R * T)) : seq (R * T) :=
  if (global_step < warmup hp)%N then
    let lr_scale :=
      Num.min 1 ((global_step + 1)%:R / (warmup hp)%:R) in
    [seq (lr_scale * lr hp, pg.2) | pg <- param_groups]
  else param_groups.

End WarmUp.

(* ------------------------------------------------------------------ *)
(* infer (lines 361-373) over DataLoader(dataset, batch_size), which   *)
(* batches the rows in order and keeps a last short batch              *)
(* (torch.utils.data.BatchSampler, drop_last=False).                   *)
(* ------------------------------------------------------------------ *)

Inductive torch_exn : Type :=
  | RuntimeError          (* torch.cat of an empty list *)
  | BatchSizeError.       (* the ValueError for batch_size <= 0 *)

Section Infer.

Variable R : realFieldType.
Variable item : Type.                   (* a row of the dataset *)

(* BatchSampler.__iter__: (batches yielded, batch being filled) *)
Definition batch_sampler_step (batch_size : nat)
    (st : seq (seq item) * seq item) (x : item)
  : seq (seq item) * seq item :=
  let batch := rcons st.2 x in
  if size batch == batch_size then (rcons st.1 batch, [::])
  else (st.1, batch).

Definition batch_sampler (batch_size : nat) (dataset : seq item)
  : seq (seq item) :=
  let st := foldl (batch_sampler_step batch_size) ([::], [::]) dataset in
  if (0 < size st.2)%N then rcons st.1 st.2 else st.1.

(* model maps a batch to (mean, log_var): mean with one entry per row,
   log_var possibly None *)
Definition infer (model : seq item -> seq R * option (seq R))
    (dataset : seq item) (batch_size : nat) : torch_exn + seq R :=
  if batch_size == 0%N then inl BatchSizeError
  else
    let predictions :=
      [seq (model batch).1 | batch <- batch_sampler batch_size dataset] in
    if predictions is [::] then inl RuntimeError
    else inr (flatten predictions).

End Infer.

(* ------------------------------------------------------------------ *)
(* CommonLitModel.validation_step and validation_epoch_end (lines      *)
(* 203-233) with kl_loss off: loss_fn is nn.MSELoss(), on a prediction  *)
(* and a target of one shape.                                          *)
(* ------------------------------------------------------------------ *)

Section Validation.

Variable R : realFieldType.

Record step_output : Type :=
  StepOutput { val_loss : R; y_pred : seq R; y_true : seq R }.

(* mean is the model's output on the batch, target its labels *)
Definition validation_step (mean target : seq R) : step_output :=
  StepOutput (mse mean target) mean target.

(* The values logged as loss/valid and, under torch.sqrt, as rmse. *)
Definition validation_epoch_end (outputs : seq step_output)
  : torch_exn + (R * R) :=
  if outputs is [::] then inl RuntimeError
  else
    let loss_val :=
      (\sum_(x <- outputs) val_loss x) / (size outputs)%:R in
    let y_pred := flatten [seq y_pred x | x <- outputs] in
    let y_true := flatten [seq y_true x | x <- outputs] in
    inr (loss_val, mse y_pred y_true).

End Validation.

(* ================================================================== *)
(* The Moore-Penrose inverse                                           *)
(* ================================================================== *)

Section MoorePenroseTheory.

Variable R : realFieldType.

Lemma mulmx_tr_eq0 p q (N : 'M[R]_(p, q)) : N *m N^T = 0 -> N = 0.
Proof.
move=> H; apply/matrixP => i j; rewrite [RHS]mxE.
have := congr1 (fun M : 'M_p => M i i) H; rewrite !mxE => S0.
have ge0 k : true -> 0 <= N i k * N^T k i.
  by rewrite mxE -expr2 sqr_ge0.
have /(_ j isT) := psumr_eq0P ge0 S0.
by rewrite mxE => /eqP; rewrite mulf_eq0 orbb => /eqP.
Qed.

Lemma gram_unit p q (W : 'M[R]_(p, q)) : row_free W -> W *m W^T \in unitmx.
Proof.
move=> /row_freeP [B WB]; rewrite -row_free_unit -kermx_eq0.
apply/eqP; set K := kermx _.
have KG : K *m (W *m W^T) = 0 by exact: mulmx_ker.
have KW : K *m W = 0.
  by apply: mulmx_tr_eq0; rewrite trmx_mul mulmxA -[K *m W *m _]mulmxA KG mul0mx.
by rewrite -[K]mulmx1 -WB mulmxA KW mul0mx.
Qed.

Lemma gram_unit_tr p q (C : 'M[R]_(p, q)) : row_full C -> C^T *m C \in unitmx.
Proof.
move=> Cf; rewrite -{2}[C]trmxK; apply: gram_unit.
by rewrite /row_free mxrank_tr.
Qed.

Lemma penrose_factor m n r (C : 'M[R]_(m, r)) (W : 'M[R]_(r, n)) :
  W *m W^T \in unitmx -> C^T *m C \in unitmx ->
  penrose (C *m W) (W^T *m invmx (W *m W^T) *m invmx (C^T *m C) *m C^T).
Proof.
set GW := W *m W^T; set GC := C^T *m C => uW uC.
have WK p (X : 'M_(r, p)) : W *m (W^T *m (invmx GW *m X)) = X.
  by rewrite !mulmxA mulmxV // mul1mx.
have CK p (X : 'M_(r, p)) : invmx GC *m (C^T *m (C *m X)) = X.
  by rewrite !mulmxA -[_ *m C^T *m C]mulmxA mulVmx // mul1mx.
have sW : (invmx GW)^T = invmx GW by rewrite trmx_inv /GW trmx_mul trmxK.
have sC : (invmx GC)^T = invmx GC by rewrite trmx_inv /GC trmx_mul trmxK.
split.
- by rewrite -!mulmxA WK CK.
- by rewrite -!mulmxA CK WK.
- by rewrite -!mulmxA WK !trmx_mul trmxK sC mulmxA.
- by rewrite -!mulmxA CK !trmx_mul trmxK sW mulmxA.
Qed.

Lemma mp_inverseP m n (A : 'M[R]_(m, n)) : penrose A (mp_inverse A).
Proof.
rewrite -{1}[A]mulmx_base; apply: penrose_factor.
- by apply: gram_unit; exact: row_base_free.
- by apply: gram_unit_tr; exact: col_base_full.
Qed.

Lemma penrose_uniq m n (A : 'M[R]_(m, n)) B B' :
  penrose A B -> penrose A B' -> B = B'.
Proof.
move=> [B1 B2 B3 B4] [C1 C2 C3 C4].
have l1 : A *m B *m (A *m B') = A *m B' by rewrite mulmxA B1.
have l2 : A *m B' *m (A *m B) = A *m B by rewrite mulmxA C1.
have r1 : B *m A *m (B' *m A) = B *m A by rewrite -mulmxA [A *m _]mulmxA C1.
have r2 : B' *m A *m (B *m A) = B' *m A by rewrite -mulmxA [A *m _]mulmxA B1.
have EL : A *m B' = A *m B by rewrite -l1 -[LHS]trmxK trmx_mul C3 B3 l2 B3.
have ER : B *m A = B' *m A by rewrite -r1 -[LHS]trmxK trmx_mul C4 B4 r2 C4.
by rewrite -B2 -mulmxA -EL mulmxA ER C2.
Qed.

Lemma mp_inverse_uniq m n (A : 'M[R]_(m, n)) B :
  penrose A B -> mp_inverse A = B.
Proof. by move=> pB; apply: penrose_uniq (mp_inverseP A) pB. Qed.

(* pinv of an invertible matrix is its inverse. *)
Lemma mp_inverse_inv n (A B : 'M[R]_n) : A *m B = 1%:M -> mp_inverse A = B.
Proof.
move=> AB; have BA := mulmx1C AB; apply: mp_inverse_uniq; split.
- by rewrite AB mul1mx.
- by rewrite BA mul1mx.
- by rewrite AB trmx1.
- by rewrite BA trmx1.
Qed.

(* pinv (c A) = pinv A / c for c != 0 *)
Lemma mp_inverseZ m n (c : R) (A : 'M[R]_(m, n)) :
  c != 0 -> mp_inverse (c *: A) = c^-1 *: mp_inverse A.
Proof.
move=> c0; apply: mp_inverse_uniq.
have [P1 P2 P3 P4] := mp_inverseP A.
have cc : c * c^-1 = 1 by rewrite divff.
have cc' : c^-1 * c = 1 by rewrite mulVf.
split.
- by rewrite -!scalemxAl -!scalemxAr -!scalemxAl !scalerA P1 mulfK.
- by rewrite -!scalemxAl -!scalemxAr -!scalemxAl !scalerA P2 mulfVK.
- by rewrite -!scalemxAl -!scalemxAr !scalerA cc scale1r.
- by rewrite -!scalemxAl -!scalemxAr !scalerA cc' scale1r.
Qed.

Lemma mp_inverse0 m n : mp_inverse (0 : 'M[R]_(m, n)) = 0.
Proof.
by apply: mp_inverse_uniq; split; rewrite ?mulmx0 ?mul0mx ?trmx0.
Qed.

(* The Moore-Penrose inverse commutes with an orthogonal change of basis. *)
Lemma mp_inverse_conj m (P A : 'M[R]_m) :
  P^T *m P = 1%:M ->
  mp_inverse (P^T *m A *m P) = P^T *m mp_inverse A *m P.
Proof.
move=> PtP; have PPt : P *m P^T = 1%:M by exact: mulmx1C.
have [A1 A2 A3 A4] := mp_inverseP A.
have K (M N : 'M[R]_m) :
    P^T *m M *m P *m (P^T *m N *m P) = P^T *m (M *m N) *m P.
  by rewrite !mulmxA -[_ *m P *m P^T]mulmxA PPt mulmx1.
apply: mp_inverse_uniq; split.
- by rewrite !K A1.
- by rewrite !K A2.
- by rewrite K trmx_mul [(P^T *m _)^T]trmx_mul trmxK A3 mulmxA.
- by rewrite K trmx_mul [(P^T *m _)^T]trmx_mul trmxK A4 mulmxA.
Qed.

End MoorePenroseTheory.

(* ================================================================== *)
(* Lengths and inner products of columns                               *)
(* ================================================================== *)

Section Columns.

Variable R : realFieldType.

Implicit Types (m n : nat).

Lemma norm2_ge0 n (u : 'cV[R]_n) : 0 <= norm2 u.
Proof. by apply: sumr_ge0 => i _; rewrite sqr_ge0. Qed.

Lemma norm2_eq0 n (u : 'cV[R]_n) : norm2 u = 0 -> u = 0.
Proof.
move=> u0; apply/matrixP => i j; rewrite ord1 mxE.
have ge0 k : true -> 0 <= u k 0 ^+ 2 by rewrite sqr_ge0.
by have /(_ i isT) /eqP := psumr_eq0P ge0 u0; rewrite sqrf_eq0 => /eqP.
Qed.

Lemma norm2D n (a b : 'cV[R]_n) :
  norm2 (a + b) = norm2 a + 2 * dotp a b + norm2 b.
Proof.
rewrite /norm2 /dotp mulr_sumr -!big_split /=.
by apply: eq_bigr => i _; rewrite !mxE; ring.
Qed.

(* X^T is the adjoint of X *)
Lemma dotp_mulmx m n (X : 'M[R]_(n, m)) (a : 'cV[R]_n) (d : 'cV[R]_m) :
  dotp a (X *m d) = dotp (X^T *m a) d.
Proof.
rewrite /dotp.
under eq_bigr => i _ do rewrite mxE mulr_sumr.
under [RHS]eq_bigr => j _ do rewrite mxE mulr_suml.
rewrite exchange_big /=; apply: eq_bigr => j _; apply: eq_bigr => i _.
by rewrite !mxE; ring.
Qed.

Lemma dotpxx n (u : 'cV[R]_n) : dotp u u = norm2 u.
Proof. by apply: eq_bigr => k _; rewrite expr2. Qed.

Lemma dotp0l n (d : 'cV[R]_n) : dotp 0 d = 0.
Proof. by rewrite /dotp big1 // => i _; rewrite mxE mul0r. Qed.

Lemma dotpDl n (a b d : 'cV[R]_n) : dotp (a + b) d = dotp a d + dotp b d.
Proof.
by rewrite /dotp -big_split; apply: eq_bigr => i _; rewrite !mxE mulrDl.
Qed.

Lemma dotpZl n c (a d : 'cV[R]_n) : dotp (c *: a) d = c * dotp a d.
Proof.
by rewrite /dotp mulr_sumr; apply: eq_bigr => i _; rewrite !mxE mulrA.
Qed.

(* The ridge matrix is invertible for a positive penalty. *)
Lemma ridge_unit m n (X : 'M[R]_(n, m)) c :
  0 < c -> X^T *m X + c *: 1%:M \in unitmx.
Proof.
move=> c0; rewrite -row_free_unit -kermx_eq0; apply/eqP.
set A := _ + _; set K := kermx A.
have KA : K *m A = 0 by exact: mulmx_ker.
apply/matrixP => i j; rewrite [RHS]mxE.
pose u : 'cV[R]_m := (row i K)^T.
have At : A^T = A by rewrite /A linearD /= trmx_mul trmxK linearZ /= trmx1.
have uA : A *m u = 0.
  by rewrite -[A *m u]trmxK trmx_mul At /u trmxK -row_mul KA row0 trmx0.
have : dotp (A *m u) u = 0 by rewrite uA dotp0l.
rewrite /A mulmxDl dotpDl -mulmxA -dotp_mulmx -scalemxAl mul1mx dotpZl.
rewrite !dotpxx => /eqP.
rewrite paddr_eq0 ?norm2_ge0 ?mulr_ge0 ?norm2_ge0 // ?ltW //.
case/andP => _; rewrite mulf_eq0 gt_eqF //= => /eqP /norm2_eq0 u0.
by have := congr1 (fun M : 'cV_m => M j 0) u0; rewrite !mxE.
Qed.

End Columns.

(* ================================================================== *)
(* np.linalg.pinv: the directions kept and dropped                     *)
(* ================================================================== *)

Section PinvTheory.

Variable R : realFieldType.

Implicit Types (m n : nat).

Lemma rcond_gt0 : 0 < rcond R.
Proof. by rewrite /rcond invr_gt0 exprn_gt0 // ltr0n. Qed.

Lemma rcond_sqE : rcond R ^+ 2 = (10%:R ^+ 30)^-1.
Proof. by rewrite /rcond exprVn -exprM. Qed.

Lemma rcond_sq_gt0 : 0 < rcond R ^+ 2.
Proof. by rewrite exprn_gt0 // rcond_gt0. Qed.

(* rcond^2 * c < 1 for c up to 10^30, in particular up to 100 *)
Lemma rcond_sq_lt c : c < 10%:R ^+ 30 -> rcond R ^+ 2 * c < 1.
Proof.
by move=> lt_c; rewrite rcond_sqE ltr_pdivrMl ?mulr1 // exprn_gt0 // ltr0n.
Qed.

Lemma rcond_sq_lt100 c : c <= 100%:R -> rcond R ^+ 2 * c < 1.
Proof.
move=> le_c; apply: rcond_sq_lt; apply: le_lt_trans le_c _.
have -> : 100%:R = 10%:R ^+ 2 :> R by rewrite -natrX.
by rewrite ltr_eXn2l // ltr1n.
Qed.

Lemma rcond_lt1 : rcond R < 1.
Proof.
rewrite /rcond invf_lt1 ?exprn_gt0 ?ltr0n //.
by rewrite exprn_egt1 // ltr1n.
Qed.

Lemma norm2_0 n : norm2 (0 : 'cV[R]_n) = 0.
Proof. by rewrite /norm2 big1 // => i _; rewrite mxE expr0n. Qed.

Lemma norm2_eq0b n (u : 'cV[R]_n) : (norm2 u == 0) = (u == 0).
Proof.
apply/eqP/eqP => [/norm2_eq0 //|->]; exact: norm2_0.
Qed.

Lemma norm2_gt0 n (u : 'cV[R]_n) : u != 0 -> 0 < norm2 u.
Proof. by move=> u0; rewrite lt_def norm2_eq0b u0 norm2_ge0. Qed.

Lemma norm2Z n c (u : 'cV[R]_n) : norm2 (c *: u) = c ^+ 2 * norm2 u.
Proof.
rewrite /norm2 mulr_sumr; apply: eq_bigr => i _.
by rewrite mxE exprMn.
Qed.

(* a matrix with orthonormal columns keeps lengths *)
Lemma norm2_orth m n (U : 'M[R]_(m, n)) (x : 'cV[R]_n) :
  U^T *m U = 1%:M -> norm2 (U *m x) = norm2 x.
Proof. by move=> UU; rewrite -!dotpxx dotp_mulmx mulmxA UU mul1mx. Qed.

Lemma mulmx_col0 m n (T : 'M[R]_(m, n)) :
  (forall x : 'cV[R]_n, T *m x = 0) -> T = 0.
Proof.
move=> H; apply/matrixP => i j.
by have := congr1 (fun M : 'cV[R]_m => M i 0) (H (delta_mx j 0));
   rewrite -colE !mxE.
Qed.

(* There is at most one projector onto the kept directions. *)
Lemma keeps_uniq m n (A : 'M[R]_(m, n)) P P' :
  keeps A P -> keeps A P' -> P = P'.
Proof.
have half Q Q' : keeps A Q -> keeps A Q' -> Q = Q' *m Q.
  move=> [_ _ Qc QK _] [_ _ Qc' _ QD'].
  have cG : (A^T *m A) *m Q' = Q' *m (A^T *m A) by apply: Qc'.
  have cQ : Q' *m Q = Q *m Q' by apply: Qc.
  suff Z : (1%:M - Q') *m Q = 0.
    by apply/eqP; rewrite -subr_eq0 -[X in X - _]mul1mx -mulmxBl Z.
  apply: mulmx_col0 => x; apply/eqP/negPn/negP => nz.
  have E : (1%:M - Q') *m (Q *m x) = Q *m ((1%:M - Q') *m x).
    by rewrite !mulmxA mulmxBl mulmxBr mul1mx mulmx1 cQ.
  have nz1 : (1%:M - Q') *m (Q *m x) != 0 by rewrite mulmxA.
  have [z z0 le] := QD' _ nz1.
  have nz2 : Q *m ((1%:M - Q') *m x) != 0 by rewrite -E.
  have := QK _ _ nz2 z0.
  by rewrite -E ltNge le.
move=> kP kP'; have E1 := half _ _ kP kP'; have E2 := half _ _ kP' kP.
have [_ _ Pc _ _] := kP; have [_ _ Pc' _ _] := kP'.
have cG : (A^T *m A) *m P' = P' *m (A^T *m A) by apply: Pc'.
have cP : P' *m P = P *m P' by apply: Pc.
by rewrite E1 cP -E2.
Qed.

Lemma kept_some m n (A : 'M[R]_(m, n)) :
  (exists P, keeps A P) -> keeps A (kept A).
Proof.
rewrite /kept; case: ClassicalEpsilon.excluded_middle_informative => // ex _.
exact: (svalP (ClassicalEpsilon.constructive_indefinite_description _ ex)).
Qed.

Lemma kept_none m n (A : 'M[R]_(m, n)) :
  ~ (exists P, keeps A P) -> kept A = 1%:M.
Proof.
by rewrite /kept; case: ClassicalEpsilon.excluded_middle_informative.
Qed.

Lemma kept_keeps m n (A : 'M[R]_(m, n)) P : keeps A P -> kept A = P.
Proof.
move=> kP; apply: (keeps_uniq _ kP); apply: kept_some.
by exists P.
Qed.

(* The projector onto the row space of A is the one pinv keeps when no
   singular value lies at or below the cutoff. *)
Lemma keeps_well m n (A : 'M[R]_(m, n)) :
  well_conditioned A -> keeps A (mp_inverse A *m A).
Proof.
rewrite /well_conditioned.
move: (mp_inverse A) (mp_inverseP A) => B [P1 P2 P3 P4] well.
set Q := B *m A.
have AQ : A *m Q = A by rewrite mulmxA.
pose G := A^T *m A; pose K := B *m B^T.
have QK : Q = K *m G.
  rewrite /K /G mulmxA -[B *m B^T *m A^T]mulmxA -trmx_mul P3.
  by rewrite !mulmxA P2.
have Ks : K^T = K by rewrite /K trmx_mul trmxK.
have Gs : G^T = G by rewrite /G trmx_mul trmxK.
have QG : Q = G *m K by rewrite -[LHS]P4 -/Q QK trmx_mul Ks Gs.
have GQ : G *m Q = G by rewrite /G -mulmxA AQ.
have QGG : Q *m G = G.
  by rewrite -[LHS]trmxK trmx_mul Gs P4 -/Q GQ Gs.
split=> //.
- by rewrite /Q mulmxA P2.
- move=> M MG.
  have Z1 : (1%:M - Q) *m M *m Q = 0.
    rewrite {2}QG mulmxA -[_ *m M *m G]mulmxA MG mulmxA.
    by rewrite mulmxBl mul1mx QGG subrr !mul0mx.
  have Z2 : Q *m M *m (1%:M - Q) = 0.
    rewrite {1}QK -[K *m G *m M]mulmxA -MG -!mulmxA mulmxBr mulmx1 AQ subrr.
    by rewrite !mulmx0.
  have E1 : M *m Q = Q *m M *m Q.
    move: Z1; rewrite -mulmxA mulmxBl mul1mx => /eqP.
    by rewrite subr_eq0 mulmxA => /eqP.
  have E2 : Q *m M = Q *m M *m Q.
    by move: Z2; rewrite mulmxBr mulmx1 => /eqP; rewrite subr_eq0 => /eqP.
  by rewrite E1 -E2.
- move=> x z Qx z0; rewrite mulmxA AQ.
  by have := well x z; rewrite -/Q; apply.
- move=> x nz; exists ((1%:M - Q) *m x) => //.
  have -> : A *m ((1%:M - Q) *m x) = 0.
    by rewrite mulmxA mulmxBr mulmx1 AQ subrr mul0mx.
  by rewrite norm2_0 mul0r mulr0 mul0r.
Qed.

(* Without a singular value at or below the cutoff pinv is the
   Moore-Penrose inverse. *)
Lemma pinv_mx_well m n (A : 'M[R]_(m, n)) :
  well_conditioned A -> pinv_mx A = mp_inverse A.
Proof.
move=> well; rewrite /pinv_mx (kept_keeps (keeps_well well)).
by have [P1 _ _ _] := mp_inverseP A; rewrite mulmxA P1.
Qed.

Lemma pinv_mx0 m n : pinv_mx (0 : 'M[R]_(m, n)) = 0.
Proof. by rewrite /pinv_mx mul0mx mp_inverse0. Qed.

(* pinv (c A) = pinv A / c: the cutoff is relative. *)
Lemma keepsZ m n (c : R) (A : 'M[R]_(m, n)) P :
  c != 0 -> keeps A P -> keeps (c *: A) P.
Proof.
move=> c0 [Ps Pi Pc PK PD].
have c2 : 0 < c ^+ 2 by rewrite exprn_even_gt0.
have NZ (v : 'cV[R]_n) : norm2 (c *: A *m v) = c ^+ 2 * norm2 (A *m v).
  by rewrite -scalemxAl norm2Z.
split=> //.
- have GE : (c *: A)^T *m (c *: A) = (c * c) *: (A^T *m A).
    by rewrite -scalemxAr [(c *: A)^T]linearZ /= -scalemxAl scalerA.
  move=> M; rewrite GE -scalemxAr -scalemxAl => H; apply: Pc.
  by apply: scalerI H; rewrite mulf_neq0.
- move=> x z Px z0; rewrite !NZ.
  have -> : rcond R ^+ 2 * (c ^+ 2 * norm2 (A *m z)) * norm2 (P *m x)
            = c ^+ 2 * (rcond R ^+ 2 * norm2 (A *m z) * norm2 (P *m x)).
    by ring.
  by rewrite -[X in _ < X]mulrA ltr_pM2l // PK.
- move=> x nz; have [z z0 le] := PD x nz; exists z => //; rewrite !NZ.
  have -> : rcond R ^+ 2 * (c ^+ 2 * norm2 (A *m z))
              * norm2 ((1%:M - P) *m x)
            = c ^+ 2 * (rcond R ^+ 2 * norm2 (A *m z)
                        * norm2 ((1%:M - P) *m x)).
    by ring.
  by rewrite -[X in X <= _]mulrA ler_pM2l.
Qed.

Lemma keptZ m n (c : R) (A : 'M[R]_(m, n)) :
  c != 0 -> kept (c *: A) = kept A.
Proof.
move=> c0.
case: (ClassicalEpsilon.excluded_middle_informative (exists P, keeps A P)).
  by case=> P kP; rewrite (kept_keeps kP) (kept_keeps (keepsZ c0 kP)).
move=> nex; rewrite (kept_none nex) kept_none // => -[P kP].
apply: nex; exists P.
by have := keepsZ (invr_neq0 c0) kP; rewrite scalerA mulVf // scale1r.
Qed.

Lemma pinv_mxZ m n (c : R) (A : 'M[R]_(m, n)) :
  c != 0 -> pinv_mx (c *: A) = c^-1 *: pinv_mx A.
Proof. by move=> c0; rewrite /pinv_mx keptZ // -scalemxAl mp_inverseZ. Qed.

(* pinv commutes with an orthogonal change of basis. *)
Section Conjugation.

Variables (n : nat) (U : 'M[R]_n).
Hypothesis UtU : U^T *m U = 1%:M.

Let UUt : U *m U^T = 1%:M.
Proof. exact: mulmx1C. Qed.

Let conjM (M N : 'M[R]_n) :
  U^T *m M *m U *m (U^T *m N *m U) = U^T *m (M *m N) *m U.
Proof. by rewrite !mulmxA -[_ *m U *m U^T]mulmxA UUt mulmx1. Qed.

Let normU (v : 'cV[R]_n) : norm2 (U *m v) = norm2 v.
Proof. exact: norm2_orth. Qed.

Let normUt (v : 'cV[R]_n) : norm2 (U^T *m v) = norm2 v.
Proof. by apply: norm2_orth; rewrite trmxK. Qed.

Lemma keeps_conj (A P : 'M[R]_n) :
  keeps A P -> keeps (U^T *m A *m U) (U^T *m P *m U).
Proof.
move=> [Ps Pi Pc PK PD].
have Ux0 (v : 'cV[R]_n) : v != 0 -> U *m v != 0.
  by move=> v0; rewrite -norm2_eq0b normU norm2_eq0b.
have Utx0 (v : 'cV[R]_n) : U^T *m v != 0 -> v != 0.
  by rewrite -norm2_eq0b normUt norm2_eq0b.
have AU (v : 'cV[R]_n) :
    norm2 (U^T *m A *m U *m v) = norm2 (A *m (U *m v)).
  by rewrite -!mulmxA normUt.
have PU (v : 'cV[R]_n) : U^T *m P *m U *m v = U^T *m (P *m (U *m v)).
  by rewrite -!mulmxA.
have QU (v : 'cV[R]_n) :
    (1%:M - U^T *m P *m U) *m v = U^T *m ((1%:M - P) *m (U *m v)).
  rewrite !mulmxBl !mul1mx mulmxBr -!mulmxA.
  by rewrite [U^T *m (U *m v)]mulmxA UtU mul1mx.
have APU (v : 'cV[R]_n) :
    U^T *m A *m U *m (U^T *m v) = U^T *m (A *m v).
  by rewrite -!mulmxA [U *m (U^T *m v)]mulmxA UUt mul1mx.
split.
- by rewrite !trmx_mul trmxK Ps mulmxA.
- by rewrite conjM Pi.
- move=> M H.
  have GE : (U^T *m A *m U)^T *m (U^T *m A *m U) = U^T *m (A^T *m A) *m U.
    by rewrite !trmx_mul trmxK !mulmxA -[_ *m U *m U^T]mulmxA UUt mulmx1.
  have [M' ME M'G] : exists2 M' : 'M[R]_n, M = U^T *m M' *m U
                       & M' *m (A^T *m A) = A^T *m A *m M'.
    exists (U *m M *m U^T).
      by rewrite !mulmxA UtU mul1mx -mulmxA UtU mulmx1.
    have := congr1 (fun T : 'M[R]_n => U *m T *m U^T) H.
    by rewrite GE !mulmxA UUt mul1mx -[X in X = _]mulmxA UUt mulmx1.
  by rewrite ME !conjM (Pc _ M'G).
- move=> x z; rewrite PU => /Utx0 Px z0.
  rewrite APU !AU !normUt -(normU z).
  exact: PK Px (Ux0 _ z0).
- move=> x; rewrite QU => /Utx0 nz.
  have [z z0 le] := PD _ nz; exists (U^T *m z).
    by rewrite -norm2_eq0b normUt norm2_eq0b.
  by rewrite !APU !normUt.
Qed.

End Conjugation.

Lemma kept_conj n (U A : 'M[R]_n) :
  U^T *m U = 1%:M -> kept (U^T *m A *m U) = U^T *m kept A *m U.
Proof.
move=> UtU; have UUt : U *m U^T = 1%:M by exact: mulmx1C.
case: (ClassicalEpsilon.excluded_middle_informative (exists P, keeps A P)).
  case=> P kP; rewrite (kept_keeps kP).
  exact: kept_keeps (keeps_conj UtU kP).
move=> nex; rewrite (kept_none nex) mulmx1 UtU kept_none // => -[P kP].
apply: nex; exists (U^T^T *m P *m U^T).
have tt : U^T^T *m U^T = 1%:M by rewrite trmxK.
have := keeps_conj tt kP.
by rewrite trmxK !mulmxA UUt mul1mx -[_ *m U *m U^T]mulmxA UUt mulmx1.
Qed.

Lemma pinv_mx_conj n (U A : 'M[R]_n) :
  U^T *m U = 1%:M ->
  pinv_mx (U^T *m A *m U) = U^T *m pinv_mx A *m U.
Proof.
move=> UtU; have UUt : U *m U^T = 1%:M by exact: mulmx1C.
rewrite /pinv_mx kept_conj // -mp_inverse_conj //.
by rewrite !mulmxA -[_ *m U *m U^T]mulmxA UUt mulmx1.
Qed.

(* The Cauchy-Schwarz inequality, and |A z|^2 <= (sum of A_ij^2) |z|^2. *)
Lemma dotpC n (u v : 'cV[R]_n) : dotp u v = dotp v u.
Proof. by apply: eq_bigr => i _; rewrite mulrC. Qed.

Lemma dotp_sq_le n (u v : 'cV[R]_n) : dotp u v ^+ 2 <= norm2 u * norm2 v.
Proof.
case: (eqVneq v 0) => [->|v0].
  by rewrite dotpC dotp0l norm2_0 mulr0 expr0n.
have nv := norm2_gt0 v0.
have := norm2_ge0 (norm2 v *: u + (- dotp u v) *: v).
rewrite norm2D !norm2Z dotpZl dotpC dotpZl [dotp v u]dotpC.
have -> : norm2 v ^+ 2 * norm2 u + 2 * (norm2 v * (- dotp u v * dotp u v))
          + (- dotp u v) ^+ 2 * norm2 v
        = norm2 v * (norm2 u * norm2 v - dotp u v ^+ 2) by ring.
by rewrite pmulr_rge0 // subr_ge0.
Qed.

Lemma norm2_mulmx_le m n (A : 'M[R]_(m, n)) (z : 'cV[R]_n) :
  norm2 (A *m z) <= frob2 A * norm2 z.
Proof.
rewrite /frob2 mulr_suml; apply: ler_sum => i _.
have -> : (A *m z) i 0 = dotp (row i A)^T z.
  by rewrite mxE; apply: eq_bigr => j _; rewrite !mxE.
apply: le_trans (dotp_sq_le _ _) _; rewrite ler_wpM2r ?norm2_ge0 //.
by rewrite /norm2 le_eqVlt; apply/orP; left; apply/eqP;
   apply: eq_bigr => j _; rewrite !mxE.
Qed.

Lemma frob2_ge0 m n (A : 'M[R]_(m, n)) : 0 <= frob2 A.
Proof.
by apply: sumr_ge0 => i _; apply: sumr_ge0 => j _; rewrite sqr_ge0.
Qed.

(* A bound on the spread of the singular values: no cutoff when
   rcond^2 |A|^2 |pinv A|^2 < 1 for the entrywise lengths. *)
Lemma well_conditioned_frob m n (A : 'M[R]_(m, n)) :
  rcond R ^+ 2 * (frob2 A * frob2 (mp_inverse A)) < 1 ->
  well_conditioned A.
Proof.
rewrite /well_conditioned; move: (mp_inverse A) => B.
move: (rcond R ^+ 2) rcond_sq_gt0 => r2 r2_gt0 cond x z Qx z0.
have Ax0 : A *m x != 0.
  by apply: contraNneq Qx => Ax; rewrite -mulmxA Ax mulmx0.
have pos : 0 < norm2 (A *m x) * norm2 z by rewrite mulr_gt0 ?norm2_gt0.
have le1 := norm2_mulmx_le A z.
have le2 : norm2 (B *m A *m x) <= frob2 B * norm2 (A *m x).
  by rewrite -mulmxA norm2_mulmx_le.
apply: (@le_lt_trans _ _ (r2 * (frob2 A * frob2 B)
                             * (norm2 (A *m x) * norm2 z))).
  rewrite -!mulrA (ler_pM2l r2_gt0).
  have -> : frob2 A * (frob2 B * (norm2 (A *m x) * norm2 z))
            = (frob2 A * norm2 z) * (frob2 B * norm2 (A *m x)) by ring.
  by rewrite ler_pM ?norm2_ge0.
by rewrite -[X in _ < X]mul1r ltr_pM2r.
Qed.

(* pinv of an invertible matrix is its inverse, the conditioning
   permitting. *)
Lemma pinv_mx_inv n (A B : 'M[R]_n) :
  A *m B = 1%:M -> rcond R ^+ 2 * (frob2 A * frob2 B) < 1 ->
  pinv_mx A = B.
Proof.
move=> AB cond; have E := mp_inverse_inv AB.
by rewrite pinv_mx_well ?E //; apply: well_conditioned_frob; rewrite E.
Qed.

(* A multiple of the unit matrix has one singular value. *)
Lemma well_conditioned_scalar n (a : R) : well_conditioned (a%:M : 'M[R]_n).
Proof.
case: (eqVneq a 0) => [->|a0] x z.
  by rewrite -[0%:M]scalemx1 scale0r mulmx0 mul0mx eqxx.
have -> : mp_inverse (a%:M : 'M[R]_n) = (a^-1)%:M.
  by apply: mp_inverse_inv; rewrite -scalar_mxM divff.
rewrite -scalar_mxM mulVf // mul1mx !mul_scalar_mx !norm2Z => x0 z0.
have a2 : 0 < a ^+ 2 by rewrite exprn_even_gt0.
have pos : 0 < a ^+ 2 * norm2 x * norm2 z.
  by apply: mulr_gt0 (norm2_gt0 z0); apply: mulr_gt0 (norm2_gt0 x0).
have -> : rcond R ^+ 2 * (a ^+ 2 * norm2 z) * norm2 x
          = rcond R ^+ 2 * (a ^+ 2 * norm2 x * norm2 z) by ring.
rewrite -[X in _ < X]mul1r (ltr_pM2r pos).
by rewrite -[X in X < _]mulr1 rcond_sq_lt100 // ler1n.
Qed.

Lemma pinv_mx_scalar n (a : R) : pinv_mx (a%:M : 'M[R]_n) = (a^-1)%:M.
Proof.
rewrite (pinv_mx_well (@well_conditioned_scalar n a)).
case: (eqVneq a 0) => [->|a0].
  by rewrite invr0 -[0%:M]scalemx1 scale0r mp_inverse0.
by apply: mp_inverse_inv; rewrite -scalar_mxM divff.
Qed.

(* The ridge matrix X^T X + c I is well conditioned when c is not
   negligible against its entries. *)
Lemma ridge_well_conditioned m n (X : 'M[R]_(n, m)) c :
  0 < c -> rcond R ^+ 2 * frob2 (X^T *m X + c *: 1%:M) < c ^+ 2 ->
  well_conditioned (X^T *m X + c *: 1%:M).
Proof.
move=> c0 cond; set A := _ + _ in cond *.
have uA : A \in unitmx by exact: ridge_unit.
rewrite /well_conditioned (mp_inverse_inv (mulmxV uA)) mulVmx //.
move: (rcond R ^+ 2) rcond_sq_gt0 cond => r2 r2_gt0 cond x z.
rewrite mul1mx => x0 z0.
have lo : c ^+ 2 * norm2 x <= norm2 (A *m x).
  rewrite /A mulmxDl -scalemxAl mul1mx norm2D norm2Z.
  rewrite -[X in X <= _]add0r lerD2r; apply: addr_ge0 (norm2_ge0 _) _.
  apply: mulr_ge0; first by rewrite ler0n.
  rewrite dotpC dotpZl; apply: mulr_ge0 (ltW c0) _.
  by rewrite -mulmxA dotp_mulmx trmxK dotpxx norm2_ge0.
apply: (@lt_le_trans _ _ (c ^+ 2 * norm2 x * norm2 z)); last first.
  by rewrite ler_wpM2r ?norm2_ge0.
apply: (@le_lt_trans _ _ (r2 * frob2 A * (norm2 x * norm2 z))).
  rewrite -!mulrA (ler_pM2l r2_gt0).
  have -> : frob2 A * (norm2 x * norm2 z) = frob2 A * norm2 z * norm2 x.
    by ring.
  by rewrite ler_wpM2r ?norm2_ge0 ?norm2_mulmx_le.
have pos : 0 < norm2 x * norm2 z by apply: mulr_gt0; apply: norm2_gt0.
by rewrite -[X in _ < X]mulrA (ltr_pM2r pos).
Qed.

End PinvTheory.

(* ================================================================== *)
(* Properties                                                          *)
(* ================================================================== *)

Section NetflixTheory.

Variable R : realFieldType.

Lemma mkseq_ord T (f : nat -> T) k : mkseq f k = [seq f (val i) | i <- enum 'I_k].
Proof. by rewrite /mkseq -val_enum_ord -map_comp. Qed.

Lemma size_seq_of_col k (v : 'cV[R]_k) : size (seq_of_col v) = k.
Proof. by rewrite /seq_of_col size_map size_enum_ord. Qed.

Lemma nth_seq_of_col k (v : 'cV[R]_k) (i : 'I_k) :
  nth 0 (seq_of_col v) i = v i 0.
Proof.
by rewrite /seq_of_col (nth_map i) ?size_enum_ord // nth_ord_enum.
Qed.

Lemma bindE T U (x : T) (k : T -> result U) : bind (Ok x) k = k x.
Proof. by []. Qed.

Lemma stackE (ps : seq (seq R)) n :
  (0 < size ps)%N -> all (fun p => size p == n) ps ->
  Np.stack ps = Ok (Np.Array2 (size ps) n (fun i j => nth 0 (nth [::] ps i) j)).
Proof.
case: ps => [|p0 ps'] // _ /[dup] alln /andP [/eqP np0 _].
by rewrite /Np.stack np0 alln.
Qed.

Lemma broadcast_dimE a : Np.broadcast_dim a a = Ok a.
Proof. by rewrite /Np.broadcast_dim eqxx. Qed.

Lemma bidx_lt d i : (i < d)%N -> Np.bidx d i = i.
Proof. by rewrite /Np.bidx; case: eqP => // ->; case: i. Qed.

Lemma broadcast1E (f : R -> R -> R) a b :
  size a = size b ->
  Np.broadcast1 f a b = Ok (mkseq (fun i => f (nth 0 a i) (nth 0 b i)) (size a)).
Proof.
move=> sab; rewrite /Np.broadcast1 -sab broadcast_dimE bindE; congr Ok.
apply/eq_in_map => i; rewrite mem_iota add0n => /andP [_ lti].
by rewrite bidx_lt.
Qed.

Lemma size_sum_axis0 (A : Np.array2 R) : size (Np.sum_axis0 A) = Np.shape1 A.
Proof. by rewrite /Np.sum_axis0 size_mkseq. Qed.

Lemma size_scalar_add c (A : Np.array2 R) :
  size (Np.scalar_add c (Np.sum_axis0 A)) = Np.shape1 A.
Proof. by rewrite /Np.scalar_add size_map size_sum_axis0. Qed.

Lemma size_scalar_mul (c : R) a : size (Np.scalar_mul c a) = size a.
Proof. by rewrite /Np.scalar_mul size_map. Qed.

Lemma netflix_valid m n (es : seq R) ps e0 l :
  size es = m -> size ps = m -> (0 < m)%N ->
  all (fun p => size p == n) ps ->
  netflix es ps e0 l
  = Ok (seq_of_col (spec_blend m n es ps e0 l),
        seq_of_col (spec_w m n es ps e0 l)).
Proof.
move=> ses sps; move: sps ses => <- ses m0 alln.
have -> : netflix es ps e0 l =
  let X := Np.transpose
             (Np.Array2 (size ps) n (fun i j => nth 0 (nth [::] ps i) j)) in
  do d <- Np.broadcast1 (fun a b => a - b)
            (Np.scalar_add (n%:R * e0 ^+ 2) (Np.sum_axis0 (Np.square X)))
            (Np.scalar_mul n%:R [seq e ^+ 2 | e <- es]);
  let pTy := Np.scalar_mul 2^-1 d in
  do G <- Np.dot (Np.transpose X) X;
  do A <- Np.broadcast2 +%R G
            (Np.scalar_mul2 (l * n%:R) (Np.eye R (size ps)));
  do w <- Np.dotv (Np.pinv A) pTy;
  do out <- Np.dotv X w;
  Ok (out, w).
  rewrite /netflix (stackE m0 alln) ses.
  case: ps m0 alln {ses} => [|p0 ps'] // _ /andP [/eqP np0 _].
  by rewrite !bindE np0.
set S := Np.Array2 _ _ _; set X := Np.transpose S; cbv zeta.
have sz : size (Np.scalar_add (n%:R * e0 ^+ 2) (Np.sum_axis0 (Np.square X)))
          = size (Np.scalar_mul n%:R [seq e ^+ 2 | e <- es]).
  by rewrite size_scalar_add size_scalar_mul size_map.
rewrite (broadcast1E _ sz).
rewrite bindE /Np.dot eqxx bindE /Np.broadcast2 !broadcast_dimE !bindE.
set A := Np.Array2 _ _ _.
set pTy := Np.scalar_mul _ _.
have spTy : size pTy = size ps.
  by rewrite /pTy size_scalar_mul size_mkseq size_scalar_add.
have AE : Np.to_mx A = (spec_X (size ps) n ps)^T *m spec_X (size ps) n ps
                       + (l * n%:R) *: 1%:M.
  apply/matrixP => i j; rewrite !mxE /A /= !bidx_lt // big_mkord.
  congr (_ + _); first by apply: eq_bigr => k _; rewrite !mxE.
  by rewrite -val_eqE /=; case: eqP => _; rewrite ?mulr1n ?mulr0n.
have pTyE (k : 'I_(size ps)) : nth 0 pTy k = spec_pTy (size ps) n es ps e0 k 0.
  rewrite /pTy /Np.scalar_mul (nth_map 0) ?size_mkseq ?size_scalar_add //.
  rewrite nth_mkseq ?size_scalar_add // !mxE; congr (_ * (_ - _)).
    rewrite /Np.scalar_add (nth_map 0) ?size_sum_axis0 // nth_mkseq //.
    congr (_ + _); rewrite /= [RHS](big_nth 0).
    by have /allP /(_ _ (mem_nth [::] (ltn_ord k))) /eqP -> := alln.
  by rewrite /Np.scalar_mul (nth_map 0) ?size_map ?ses // (nth_map 0) ?ses.
have wE : mkseq (fun i => \sum_(0 <= k < Np.shape1 (Np.pinv A))
                     Np.item (Np.pinv A) i k * pTy`_k) (Np.shape0 (Np.pinv A))
          = seq_of_col (spec_w (size ps) n es ps e0 l).
  rewrite mkseq_ord; apply: eq_map => i; rewrite mxE big_mkord.
  apply: eq_bigr => k _; rewrite pTyE; congr (_ * _).
  by rewrite /Np.pinv /Np.of_mx /= !valK AE.
rewrite /Np.dotv spTy eqxx bindE wE.
have -> : size (seq_of_col (spec_w (size ps) n es ps e0 l)) = Np.shape1 X.
  by rewrite /seq_of_col size_map size_enum_ord.
rewrite eqxx bindE; congr (Ok (_, _)).
rewrite mkseq_ord; apply: eq_map => i; rewrite mxE big_mkord.
apply: eq_bigr => k _; rewrite mxE; congr (_ * _).
by rewrite /seq_of_col (nth_map k) ?size_enum_ord // nth_ord_enum.
Qed.


(** C1: for m >= 1 models whose prediction vectors all have length n >= 1,
    netflix returns exactly (X @ w, w), with X the n-by-m matrix of the
    predictions as columns, pTy_i = 0.5 * (n*e0^2 + sum of squares of the
    i-th vector - n*es[i]^2) and w = pinv(X^T X + l*n*I) @ pTy. *)
Theorem netflix_returns_ridge_solution m n (es : seq R) ps e0 l :
  size es = m -> size ps = m -> (0 < m)%N -> (0 < n)%N ->
  all (fun p => size p == n) ps ->
  netflix es ps e0 l
  = Ok (seq_of_col (spec_blend m n es ps e0 l),
        seq_of_col (spec_w m n es ps e0 l)).
Proof. by move=> ses sps m0 _; exact: netflix_valid. Qed.


Local Notation dup := (@duplicate R).

Lemma spec_gram_dup m n (ps : seq (seq R)) :
  size ps = m -> all (fun p => size p == n) ps ->
  (spec_X m (n + n) (dup ps))^T *m spec_X m (n + n) (dup ps)
  = 2 *: ((spec_X m n ps)^T *m spec_X m n ps).
Proof.
move=> sps alln; apply/matrixP => a b; rewrite !mxE big_split_ord /=.
have E (c : 'I_m) (i : 'I_n) :
    (nth 0 (nth [::] (dup ps) c) i = nth 0 (nth [::] ps c) i) *
    (nth 0 (nth [::] (dup ps) c) (n + i) = nth 0 (nth [::] ps c) i).
  have sc : size (nth [::] ps c) = n.
    by apply/eqP/(allP alln)/mem_nth; rewrite sps.
  rewrite (nth_map [::]) ?sps // !nth_cat sc /= ltn_ord.
  by rewrite ltnNge leq_addr /= addKn.
rewrite mulr_natl mulr2n; congr (_ + _); apply: eq_bigr => i _.
  by rewrite !mxE !E.
by rewrite !mxE !E.
Qed.

Lemma spec_pTy_dup m n (es : seq R) ps e0 :
  size ps = m ->
  spec_pTy m (n + n) es (dup ps) e0 = 2 *: spec_pTy m n es ps e0.
Proof.
move=> sps; apply/matrixP => a b; rewrite !mxE (nth_map [::]) ?sps //.
rewrite big_cat /= natrD mulrCA; congr (_ * _).
by rewrite mulr_natl mulr2n !mulrDl opprD; ring.
Qed.

Lemma spec_w_dup m n (es : seq R) ps e0 l :
  size ps = m -> all (fun p => size p == n) ps ->
  spec_w m (n + n) es (dup ps) e0 l = spec_w m n es ps e0 l.
Proof.
move=> sps alln; rewrite /spec_w spec_gram_dup // spec_pTy_dup //.
have -> : (l * (n + n)%:R) *: 1%:M = 2 *: ((l * n%:R) *: 1%:M) :> 'M[R]_m.
  by rewrite scalerA natrD; congr (_ *: _); ring.
rewrite -scalerDr pinv_mxZ ?pnatr_eq0 //.
by rewrite -scalemxAl -scalemxAr scalerA mulVf ?pnatr_eq0 // scale1r.
Qed.

Lemma all_size_dup n (ps : seq (seq R)) :
  all (fun p => size p == n) ps -> all (fun p => size p == (n + n)%N) (dup ps).
Proof.
move=> alln; rewrite all_map; apply/allP => p pin /=.
by rewrite size_cat (eqP (allP alln _ pin)).
Qed.

(** C6: duplicating the entries of every prediction vector (n doubles),
    with the RMSEs, e0 and lambda unchanged, yields exactly the same weight
    vector, the ridge term being lambda * n. *)
Theorem netflix_weights_duplication m n (es : seq R) ps e0 l :
  size es = m -> size ps = m -> (0 < m)%N -> (0 < n)%N ->
  all (fun p => size p == n) ps ->
  exists w, weights (netflix es ps e0 l) = Some w
            /\ weights (netflix es (duplicate ps) e0 l) = Some w.
Proof.
move=> ses sps m0 _ alln; exists (seq_of_col (spec_w m n es ps e0 l)).
rewrite (netflix_valid _ _ ses sps m0 alln); split=> //.
have sd : size (dup ps) = m by rewrite size_map.
by rewrite (netflix_valid _ _ ses sd m0 (all_size_dup alln)) /= spec_w_dup.
Qed.


Section Reorder.

Variables (m n : nat) (s : seq nat).
Hypothesis s_perm : perm_eq s (iota 0 n).

Let size_s : size s = n.
Proof. by rewrite (perm_size s_perm) size_iota. Qed.

Lemma sum_reorder (F : nat -> R) :
  \sum_(i < n) F (nth 0%N s i) = \sum_(i < n) F i.
Proof.
rewrite -(big_mkord xpredT (fun i => F (nth 0%N s i))) -(big_mkord xpredT F).
rewrite -{1}size_s -(big_nth 0%N xpredT F) (perm_big _ s_perm).
by rewrite /index_iota subn0.
Qed.

Lemma spec_X_reorder (ps : seq (seq R)) (i : 'I_n) (j : 'I_m) :
  size ps = m ->
  spec_X m n (reorder s ps) i j
  = nth 0 (nth [::] ps j) (nth 0%N s i).
Proof.
move=> sps; rewrite mxE (nth_map [::]) ?sps //.
by rewrite (nth_map 0%N) ?size_s.
Qed.

Lemma spec_gram_reorder (ps : seq (seq R)) :
  size ps = m ->
  (spec_X m n (reorder s ps))^T *m spec_X m n (reorder s ps)
  = (spec_X m n ps)^T *m spec_X m n ps.
Proof.
move=> sps; apply/matrixP => a b; rewrite !mxE.
under eq_bigr => i _ do rewrite mxE !spec_X_reorder //.
rewrite (sum_reorder (fun i => nth 0 (nth [::] ps a) i * nth 0 (nth [::] ps b) i)).
by apply: eq_bigr => i _; rewrite !mxE.
Qed.

Lemma spec_pTy_reorder (es : seq R) ps e0 :
  size ps = m -> all (fun p => size p == n) ps ->
  spec_pTy m n es (reorder s ps) e0 = spec_pTy m n es ps e0.
Proof.
move=> sps alln; apply/matrixP => a b; rewrite !mxE (nth_map [::]) ?sps //.
congr (_ * (_ + _ - _)); rewrite big_map (perm_big _ s_perm) /=.
have sc : size (nth [::] ps a) = n.
  by apply/eqP/(allP alln)/mem_nth; rewrite sps.
by rewrite [RHS](big_nth 0) sc /index_iota subn0.
Qed.

Lemma spec_w_reorder (es : seq R) ps e0 l :
  size ps = m -> all (fun p => size p == n) ps ->
  spec_w m n es (reorder s ps) e0 l = spec_w m n es ps e0 l.
Proof.
by move=> sps alln; rewrite /spec_w spec_gram_reorder // spec_pTy_reorder.
Qed.

Lemma spec_blend_reorder (es : seq R) ps e0 l :
  size ps = m -> all (fun p => size p == n) ps ->
  seq_of_col (spec_blend m n es (reorder s ps) e0 l)
  = [seq nth 0 (seq_of_col (spec_blend m n es ps e0 l)) i | i <- s].
Proof.
move=> sps alln; apply: (@eq_from_nth _ 0).
  by rewrite size_map size_seq_of_col size_s.
move=> k; rewrite size_seq_of_col => ltk.
have sk : (nth 0%N s k < n)%N.
  have : nth 0%N s k \in s by rewrite mem_nth ?size_s.
  by rewrite (perm_mem s_perm) mem_iota.
rewrite (nth_map 0%N) ?size_s //.
rewrite (nth_seq_of_col _ (Ordinal ltk)) (nth_seq_of_col _ (Ordinal sk)).
rewrite /spec_blend spec_w_reorder // [LHS]mxE [RHS]mxE.
apply: eq_bigr => j _; rewrite spec_X_reorder //; congr (_ * _).
by rewrite mxE.
Qed.

Lemma all_size_reorder (ps : seq (seq R)) :
  all (fun p => size p == n) (reorder s ps).
Proof. by rewrite all_map; apply/allP => p _ /=; rewrite size_map size_s. Qed.

End Reorder.

(** C10: applying one permutation of the example indices to all prediction
    vectors (scores, e0 and lambda unchanged) leaves the returned weights
    unchanged and permutes the returned blend in the same way. *)
Theorem netflix_example_order m n (s : seq nat) (es : seq R) ps e0 l :
  size es = m -> size ps = m -> (0 < m)%N ->
  all (fun p => size p == n) ps -> perm_eq s (iota 0 n) ->
  exists out w,
    [/\ netflix es ps e0 l = Ok (out, w)
      & netflix es (reorder s ps) e0 l = Ok ([seq nth 0 out i | i <- s], w)].
Proof.
move=> ses sps m0 alln sperm.
exists (seq_of_col (spec_blend m n es ps e0 l)).
exists (seq_of_col (spec_w m n es ps e0 l)).
split; first exact: netflix_valid.
have sr : size (reorder s ps) = m by rewrite size_map.
rewrite (netflix_valid _ _ ses sr m0 (all_size_reorder sperm ps)).
by rewrite spec_blend_reorder // spec_w_reorder.
Qed.


Section SingleModel.

Variables (p : seq R) (e e0 l : R).

Let n := size p.
Let s : R := \sum_(x <- p) x ^+ 2.

Local Notation single_weight := (single_weight p e e0 l).

Lemma mp_inverse_scalar (a : R) :
  a != 0 -> mp_inverse (a%:M : 'M[R]_1) = (a^-1)%:M.
Proof.
by move=> a0; apply: mp_inverse_inv; rewrite -scalar_mxM divff.
Qed.

Lemma spec_ridge_single :
  (spec_X 1 n [:: p])^T *m spec_X 1 n [:: p] + (l * n%:R) *: 1%:M
  = (s + l * n%:R)%:M.
Proof.
apply/matrixP => i j; rewrite !ord1 !mxE eqxx mulr1n mulr1; congr (_ + _).
rewrite /s (big_nth 0) big_mkord; apply: eq_bigr => k _.
by rewrite !mxE /= expr2.
Qed.

Lemma spec_w_single :
  s + l * n%:R != 0 -> spec_w 1 n [:: e] [:: p] e0 l = single_weight%:M.
Proof.
move=> nz; rewrite /spec_w spec_ridge_single pinv_mx_scalar.
rewrite mul_scalar_mx; apply/matrixP => i j; rewrite !ord1 !mxE /=.
by rewrite mulr1n.
Qed.

Lemma netflix_single :
  s + l * n%:R != 0 ->
  netflix [:: e] [:: p] e0 l
  = Ok ([seq x * single_weight | x <- p], [:: single_weight]).
Proof.
move=> nz.
have alln : all (fun q => size q == n) [:: p] by rewrite /= eqxx.
have ses : size [:: e] = 1%N by [].
have sps : size [:: p] = 1%N by [].
rewrite (netflix_valid e0 l ses sps isT alln).
rewrite /spec_blend spec_w_single //; congr (Ok (_, _)); last first.
  apply: (@eq_from_nth _ 0); first by rewrite size_seq_of_col.
  by rewrite size_seq_of_col; case=> // _; rewrite (nth_seq_of_col _ ord0) mxE.
apply: (@eq_from_nth _ 0); first by rewrite size_seq_of_col size_map.
move=> k; rewrite size_seq_of_col => ltk.
rewrite (nth_seq_of_col _ (Ordinal ltk)) (nth_map 0) //.
by rewrite mxE big_ord1 !mxE.
Qed.

End SingleModel.


Section SingleModelLimit.

Variables (p : seq R) (e0 : R).

Let n := size p.
Let s : R := \sum_(x <- p) x ^+ 2.

Hypothesis s_neq0 : s != 0.

Let s_gt0 : 0 < s.
Proof.
by rewrite lt_def s_neq0 /=; apply: sumr_ge0 => x _; rewrite sqr_ge0.
Qed.

Let n_gt0 : 0 < n%:R :> R.
Proof.
rewrite ltr0n lt0n /n; apply: contra_neq s_neq0 => /size0nil p0.
by rewrite /s p0 big_nil.
Qed.

Lemma single_weight_half l :
  0 < l -> single_weight p e0 e0 l - 2^-1
           = - (l * n%:R) / (2 * (s + l * n%:R)).
Proof.
move=> l0; rewrite /single_weight -/s -/n.
have d0 : s + l * n%:R != 0.
  by rewrite gt_eqF // addr_gt0 // mulr_gt0.
by field; rewrite d0.
Qed.

Lemma single_weight_close eps l :
  0 < eps -> 0 < l < 2 * eps * s / n%:R ->
  `|single_weight p e0 e0 l - 2^-1| < eps.
Proof.
move=> eps0 /andP [l0 ld]; rewrite single_weight_half //.
have ln0 : 0 < l * n%:R by rewrite mulr_gt0.
have d0 : 0 < 2 * (s + l * n%:R) by rewrite mulr_gt0 // addr_gt0.
rewrite mulNr normrN ger0_norm ?divr_ge0 ?ltW //.
rewrite ltr_pdivrMr //; move: ld; rewrite ltr_pdivlMr // => ld.
apply: lt_le_trans ld _.
have -> : eps * (2 * (s + l * n%:R))
          = 2 * eps * s + 2 * (eps * (l * n%:R)) by ring.
by rewrite lerDl !mulr_ge0 // ltW.
Qed.

Lemma single_denominator l : 0 < l -> s + l * n%:R != 0.
Proof. by move=> l0; rewrite gt_eqF // addr_gt0 // mulr_gt0. Qed.

Lemma single_weight_le_half l : 0 < l -> single_weight p e0 e0 l <= 2^-1.
Proof.
move=> l0; rewrite -subr_le0 single_weight_half // mulNr oppr_le0.
by rewrite divr_ge0 ?mulr_ge0 ?addr_ge0 ?mulr_ge0 // ltW.
Qed.

Lemma single_weight_tends :
  tends_to_as_lambda_vanishes
    (fun l => oentry 0 (weights (netflix [:: e0] [:: p] e0 l))) 2^-1.
Proof.
move=> eps eps0; exists (2 * eps * s / n%:R).
  by rewrite divr_gt0 // !mulr_gt0.
move=> l /[dup] lr /andP [l0 _]; exists (single_weight p e0 e0 l).
  by rewrite netflix_single // single_denominator.
exact: single_weight_close.
Qed.

Lemma single_blend_tends i :
  (i < n)%N ->
  tends_to_as_lambda_vanishes
    (fun l => oentry i (blend (netflix [:: e0] [:: p] e0 l))) (nth 0 p i / 2).
Proof.
move=> ltin eps eps0.
have a0 : 0 < 1 + `|nth 0 p i| by rewrite ltr_wpDr.
have e'0 : 0 < eps / (1 + `|nth 0 p i|) by rewrite divr_gt0.
exists (2 * (eps / (1 + `|nth 0 p i|)) * s / n%:R).
  by rewrite divr_gt0 // mulr_gt0 // mulr_gt0.
move=> l /[dup] lr /andP [l0 _].
exists (nth 0 p i * single_weight p e0 e0 l).
  rewrite netflix_single ?single_denominator //= /oentry /=.
  by rewrite (nth_map 0).
rewrite -mulrBr normrM; have := single_weight_close e'0 lr.
move: (`|single_weight p e0 e0 l - 2^-1|) (normr_ge0 (nth 0 p i)) => d pi0 dlt.
apply: le_lt_trans (_ : `|nth 0 p i| * (eps / (1 + `|nth 0 p i|)) < eps).
  by apply: ler_wpM2l => //; exact: ltW.
rewrite mulrCA -[ltRHS]mulr1 ltr_pM2l // ltr_pdivrMr // mul1r.
by rewrite ltrDr.
Qed.

End SingleModelLimit.

(** C7 (as amended): for m = 1 and a prediction vector p with nonzero sum
    of squares, when the supplied model RMSE equals the baseline e0 the
    weight returned by netflix converges to 1/2 as lambda tends to 0, and
    the blended output converges to p / 2. *)
Theorem netflix_single_model_limit (p : seq R) e0 :
  \sum_(x <- p) x ^+ 2 != 0 ->
  tends_to_as_lambda_vanishes
    (fun l => oentry 0 (weights (netflix [:: e0] [:: p] e0 l))) 2^-1
  /\ forall i, (i < size p)%N ->
       tends_to_as_lambda_vanishes
         (fun l => oentry i (blend (netflix [:: e0] [:: p] e0 l)))
         (nth 0 p i / 2).
Proof.
move=> s0; split; first exact: single_weight_tends.
by move=> i lti; apply: single_blend_tends.
Qed.

Local Notation es9 := ([:: 2; 0] : seq R).
Local Notation ps9 := ([:: [:: -1]; [:: 1]] : seq (seq R)).

Lemma ord2_cases (P : 'I_2 -> Prop) : P ord0 -> P (lift ord0 ord0) -> forall i, P i.
Proof.
move=> P0 P1 [[|[|k]] lti] //.
- by rewrite (_ : Ordinal lti = ord0) //; apply: val_inj.
- by rewrite (_ : Ordinal lti = lift ord0 ord0) //; apply: val_inj.
Qed.

Lemma spec_w9 : spec_w 2 1 es9 ps9 1 1 = \col_i (if i == ord0 then - 3^-1 else 3^-1).
Proof.
rewrite /spec_w.
set B : 'M[R]_2 := \matrix_(i, j) (if i == j then 2 / 3 else 3^-1).
have -> : pinv_mx ((spec_X 2 1 ps9)^T *m spec_X 2 1 ps9 + (1 * 1%:R) *: 1%:M) = B.
  apply: pinv_mx_inv.
    apply/matrixP; elim/ord2_cases; elim/ord2_cases;
      rewrite !(mxE, big_ord_recl, big_ord0) /=; field.
  apply: rcond_sq_lt100.
  rewrite /frob2 !(big_ord_recl, big_ord0) !(mxE, big_ord_recl, big_ord0) /=.
  lra.
apply/matrixP => i j; rewrite !ord1; elim/ord2_cases: i;
  rewrite !(mxE, big_ord_recl, big_ord0, big_cons, big_nil) /=; field.
Qed.

Lemma seq_of_col2 (v : 'cV[R]_2) :
  seq_of_col v = [:: v ord0 0; v (lift ord0 ord0) 0].
Proof.
by rewrite /seq_of_col enum_ordSl enum_ordSl /= (_ : enum 'I_0 = [::]) //;
   apply: size0nil; rewrite size_enum_ord.
Qed.

(** C9: the weights netflix returns are the solved ones as they are, with
    no clipping, projection or normalisation, and they need be neither
    non-negative nor of sum 1: for es = [2, 0], ps = [[-1], [1]], e0 = 1
    and l = 1 they are [-1/3, 1/3]. *)
Theorem netflix_weights_unconstrained :
  (forall m n (es : seq R) ps e0 l,
     size es = m -> size ps = m -> (0 < m)%N ->
     all (fun p => size p == n) ps ->
     weights (netflix es ps e0 l) = Some (seq_of_col (spec_w m n es ps e0 l)))
  /\ exists (es : seq R) ps e0 l w,
       [/\ size es = size ps, (2 <= size ps)%N
          & all (fun p => size p == 1%N) ps]
       /\ [/\ weights (netflix es ps e0 l) = Some w,
               has (fun x => x < 0) w & \sum_(x <- w) x != 1].
Proof.
split.
  by move=> m n es ps e0 l ses sps m0 alln; rewrite (netflix_valid _ _ ses sps m0 alln).
exists es9, ps9, 1, 1, [:: - 3^-1; 3^-1]; split=> //; split.
- have ses : size es9 = 2%N by [].
  have sps : size ps9 = 2%N by [].
  have alln : all (fun p => size p == 1%N) ps9 by [].
  by rewrite (netflix_valid 1 1 ses sps isT alln) /= spec_w9 seq_of_col2 !mxE.
- by rewrite /= oppr_lt0 invr_gt0 ltr0n.
- by rewrite big_cons big_seq1 addNr eq_sym oner_eq0.
Qed.

Lemma seq_of_col0 (v : 'cV[R]_0) : seq_of_col v = [::].
Proof. by apply: size0nil; rewrite size_seq_of_col. Qed.

Lemma spec_w_empty m (es : seq R) ps e0 l : spec_w m 0 es ps e0 l = 0.
Proof.
rewrite /spec_w mulr0 scale0r addr0.
have -> : (spec_X m 0 ps)^T *m spec_X m 0 ps = 0.
  by apply/matrixP => i j; rewrite !mxE big_ord0.
by rewrite pinv_mx0 mul0mx.
Qed.

Lemma netflix_no_models (es : seq R) e0 l :
  netflix es [::] e0 l = Raise IndexError.
Proof. by []. Qed.

Lemma netflix_ragged (es : seq R) ps e0 l :
  (0 < size ps)%N -> ~~ all (fun p => size p == size (head [::] ps)) ps ->
  netflix es ps e0 l = Raise ValueError.
Proof.
case: ps => [|p0 ps'] // _ /negbTE nall.
by rewrite /netflix bindE /Np.stack nall.
Qed.

Lemma netflix_no_examples (es : seq R) ps e0 l :
  size es = size ps -> (0 < size ps)%N -> all (fun p => size p == 0%N) ps ->
  netflix es ps e0 l = Ok ([::], nseq (size ps) 0).
Proof.
move=> ses m0 all0; rewrite (netflix_valid _ _ ses (erefl _) m0 all0).
rewrite seq_of_col0 spec_w_empty; congr (Ok (_, _)).
apply: (@eq_from_nth _ 0); first by rewrite size_seq_of_col size_nseq.
move=> k; rewrite size_seq_of_col => ltk.
by rewrite (nth_seq_of_col _ (Ordinal ltk)) nth_nseq ltk mxE.
Qed.

(** C4 (as amended): netflix has no validation step of its own. With no
    prediction vector, ps[0] raises IndexError; with prediction vectors
    of unequal length, np.stack raises ValueError before any algebra; with
    m >= 1 vectors of length zero (and as many scores), netflix raises
    nothing and returns an empty blend with all-zero weights. *)
Theorem netflix_input_errors (es : seq R) ps e0 l :
  [/\ ps = [::] -> netflix es ps e0 l = Raise IndexError,
      (0 < size ps)%N ->
      ~~ all (fun p => size p == size (head [::] ps)) ps ->
      netflix es ps e0 l = Raise ValueError
    & size es = size ps -> (0 < size ps)%N ->
      all (fun p => size p == 0%N) ps ->
      netflix es ps e0 l = Ok ([::], nseq (size ps) 0)].
Proof.
split; first by move=> ->.
- exact: netflix_ragged.
- exact: netflix_no_examples.
Qed.

End NetflixTheory.

(** C7 (as stated) fails: with p = [1] and es[0] = e0 = 1 the weight does
    not converge to 1. *)
Lemma netflix_single_weight_not_one :
  ~ tends_to_as_lambda_vanishes
      (fun l : rat => oentry 0 (weights (netflix [:: 1] [:: [:: 1]] 1 l))) 1.
Proof.
move=> /(_ (1 / 4)) [] // delta d0 /(_ (delta / 2)) [].
  by rewrite divr_gt0 //= ltr_pdivrMr // ltr_pMr // ltr1n.
have l0 : 0 < delta / 2 by rewrite divr_gt0.
have s0 : \sum_(x <- [:: 1 : rat]) x ^+ 2 != 0.
  by rewrite big_seq1 expr1n oner_eq0.
move=> v; rewrite netflix_single ?single_denominator //= => -[<-].
have := single_weight_le_half 1 s0 l0.
move: (single_weight _ _ _ _) => w wle.
rewrite ltNge => /negP; apply.
rewrite ler_normr; apply/orP; right.
rewrite opprB lerBrDr.
apply: le_trans (_ : 1 / 4 + 2^-1 <= 1); first by rewrite lerD2l.
by [].
Qed.

(** C4 (as stated) fails: given one model with a zero-length prediction
    vector, netflix raises nothing and returns a result. *)
Lemma netflix_zero_length_returns :
  netflix [:: 1 : rat] [:: [::]] 1 1 = Ok ([::], [:: 0]).
Proof. exact: (@netflix_no_examples rat [:: 1] [:: [::]] 1 1). Qed.
Section CutTheory.

Variable R : realFieldType.

Lemma foldr_min_le (x0 : R) xs v :
  v \in x0 :: xs -> foldr Order.min x0 xs <= v.
Proof.
elim: xs => [|x xs IH] /=; first by rewrite mem_seq1 => /eqP ->.
rewrite !inE => /or3P [/eqP ev | /eqP ev | vin].
- by rewrite ge_min IH ?orbT // ev mem_head.
- by rewrite ge_min ev lexx.
- by rewrite ge_min IH ?orbT // inE vin orbT.
Qed.

Lemma foldr_max_ge (x0 : R) xs v :
  v \in x0 :: xs -> v <= foldr Order.max x0 xs.
Proof.
elim: xs => [|x xs IH] /=; first by rewrite mem_seq1 => /eqP ->.
rewrite !inE => /or3P [/eqP ev | /eqP ev | vin].
- by rewrite le_max IH ?orbT // ev mem_head.
- by rewrite le_max ev lexx.
- by rewrite le_max IH ?orbT // inE vin orbT.
Qed.

Lemma linspace_cons (start stop : R) div :
  Pd.linspace start stop div
  = start :: [seq start + i%:R * ((stop - start) / div%:R) | i <- iota 1 div].
Proof. by rewrite /Pd.linspace /= mul0r addr0. Qed.

Lemma last_linspace (start stop : R) div :
  (0 < div)%N ->
  last start [seq start + i%:R * ((stop - start) / div%:R) | i <- iota 1 div]
  = stop.
Proof.
case: div => // d _; rewrite -addn1 iotaD map_cat last_cat /= add1n addn1.
by rewrite mulrCA mulfV ?pnatr_eq0 // mulr1 addrC subrK.
Qed.

(* An edge list that starts below v and ends at or above v gives v a bin. *)
Lemma bins_to_cuts_some (x : seq R) e0 es :
  (forall v, v \in x -> e0 < v <= last e0 es) ->
  all isSome (Pd.bins_to_cuts x (e0 :: es)).
Proof.
move=> bounds; rewrite /Pd.bins_to_cuts all_map; apply/allP => v vin /=.
have /andP [lo hi] := bounds v vin.
rewrite /Pd.searchsorted_left /= lo add1n /= eqSS.
case: eqP => // /eqP; rewrite -all_count => /allP lt_all.
have : last e0 es \in e0 :: es by rewrite mem_last.
rewrite inE => /orP [/eqP le0 | /lt_all].
  by move: hi; rewrite le0 leNgt lo.
by rewrite ltNge hi.
Qed.

Lemma bin_edgesP (mn mx : R) nb :
  (0 < nb)%N -> mn <= mx ->
  exists e0 es, [/\ Pd.bin_edges mn mx nb = e0 :: es, e0 < mn
                  & mx <= last e0 es].
Proof.
move=> nb0 le_mn_mx; rewrite /Pd.bin_edges.
have k0 : 0 < 1000%:R^-1 :> R by rewrite invr_gt0 ltr0n.
case: ifP => [_ | /negbT mn_mx]; rewrite linspace_cons.
  eexists; eexists; split; first by [].
    rewrite ltrBlDr ltrDl.
    by case: ifP => [nz|_] //; rewrite mulr_gt0 // normr_gt0.
  rewrite last_linspace // lerDl.
  by case: ifP => _; [rewrite mulr_ge0 ?normr_ge0 // ltW | exact: ltW].
eexists; eexists; split; first by [].
  by rewrite /= ltrBlDr ltrDl mulr_gt0 // subr_gt0 lt_def eq_sym mn_mx.
rewrite /=.
have <- : last mn [seq mn + i%:R * ((mx - mn) / nb%:R) | i <- iota 1 nb]
          = last (mn - (mx - mn) * 1000%:R^-1)
              [seq mn + i%:R * ((mx - mn) / nb%:R) | i <- iota 1 nb].
  by case: (nb) nb0.
by rewrite last_linspace.
Qed.

Lemma cut_isSome (y : seq R) nb labels :
  Pd.cut y nb = Ok labels -> all isSome labels /\ size labels = size y.
Proof.
rewrite /Pd.cut; case: ltnP => // nb0; case: y => [|x0 xs] //.
set mn := foldr _ _ _; set mx := foldr _ _ _.
have mnP v : v \in x0 :: xs -> mn <= v by exact: foldr_min_le.
have mxP v : v \in x0 :: xs -> v <= mx by exact: foldr_max_ge.
have [|e0 [es [-> lo hi]]] := @bin_edgesP mn mx nb nb0.
  exact: le_trans (mnP _ (mem_head _ _)) (mxP _ (mem_head _ _)).
have sz e : size (Pd.bins_to_cuts (x0 :: xs) e) = size (x0 :: xs).
  by rewrite /Pd.bins_to_cuts size_map.
move=> E; have {E} <- : Pd.bins_to_cuts (x0 :: xs) (e0 :: es) = labels.
  by case: E.
split; last exact: sz.
apply: bins_to_cuts_some => v vin.
by rewrite (lt_le_trans lo (mnP v vin)) (le_trans (mxP v vin) hi).
Qed.

Lemma cut_ok (y : seq R) nb :
  (0 < nb)%N -> (0 < size y)%N -> returns (Pd.cut y nb).
Proof. by move=> nb0 y0; rewrite /Pd.cut ltnNge nb0 /=; case: y y0. Qed.

End CutTheory.

Local Close Scope ring_scope.

Section RandomTheory.

Variable G : rng_model.

Lemma take_rowsE T (x0 : T) (rows : seq T) (locs : seq nat) :
  all (fun i => i < size rows) locs ->
  take_rows rows locs = [seq nth x0 rows i | i <- locs].
Proof.
rewrite /take_rows; elim: locs => [|i locs IH] //= /andP [lti /IH ->].
by rewrite (drop_nth x0 lti) /= take0.
Qed.

Lemma all_take_rows T (P : pred T) (rows : seq T) (locs : seq nat) :
  all P rows -> all P (take_rows rows locs).
Proof.
move=> aP; rewrite /take_rows; elim: locs => [|i locs IH] //=.
rewrite all_cat IH andbT.
have: all P (drop i rows).
  by move: aP; rewrite -{1}(cat_take_drop i rows) all_cat => /andP [].
by rewrite -{1}(cat_take_drop 1 (drop i rows)) all_cat => /andP [].
Qed.

Lemma permutation_lt (g : rng_state G) n :
  all (fun i => i < n) (permutation g n).1.
Proof.
apply/allP => i; rewrite (perm_mem (permutationP g n)) mem_iota.
by case/andP.
Qed.

Lemma size_permutation (g : rng_state G) n : size (permutation g n).1 = n.
Proof. by rewrite (perm_size (permutationP g n)) size_iota. Qed.

Lemma size_shuffle T (g : rng_state G) (a : seq T) :
  size (shuffle g a).1 = size a.
Proof.
rewrite /shuffle; case E: (permutation g (size a)) => [locs g'] /=.
have := permutation_lt g (size a); rewrite E /= => lt.
case: a E lt => [|x0 a] E lt.
  by have := size_permutation g 0; rewrite E /=; case: (locs).
rewrite (take_rowsE x0 lt) size_map.
by have := size_permutation g (size (x0 :: a)); rewrite E.
Qed.

Lemma all_shuffle T (P : pred T) (g : rng_state G) (a : seq T) :
  all P a -> all P (shuffle g a).1.
Proof.
rewrite /shuffle; case: (permutation g (size a)) => [locs g'] /=.
exact: all_take_rows.
Qed.

End RandomTheory.

Section KFoldTheory.

Variable G : rng_model.

(* Exactly one class label below k matches a given label below k. *)
Lemma sum_indicator k f (b : bool) :
  f < k -> \sum_(0 <= i < k) ((f == i) && b : nat) = b.
Proof.
move=> ltf; rewrite (bigD1_seq f) ?iota_uniq ?mem_index_iota //= eqxx /=.
rewrite big1 ?addn0 // => i /negbTE; rewrite eq_sym => -> //.
Qed.

(* Splitting s by the labels of its positions loses and repeats nothing. *)
Lemma sum_count_mask k (lab : seq nat) T (a : pred T) (s : seq T) :
  size lab = size s -> all (fun f => f < k) lab ->
  \sum_(0 <= i < k) count a (mask [seq f == i | f <- lab] s) = count a s.
Proof.
elim: lab s => [|f lab IH] [|x s] //=.
  by move=> _ _; rewrite big1 // => i _; rewrite mask0.
case=> ss /andP [ltf ltl].
rewrite (eq_bigr (fun i => ((f == i) && a x : nat)
                  + count a (mask [seq f == i | f <- lab] s))) => [i _|].
  by case: (f == i).
by rewrite big_split /= IH // sum_indicator.
Qed.

Lemma strideE T i k (a : seq T) :
  Sk.stride i k a
  = mask [seq f == i | f <- [seq j %% k | j <- iota 0 (size a)]] a.
Proof. by rewrite /Sk.stride -map_comp. Qed.

(* The blocks of fold indices of a class are as many as its members. *)
Lemma size_folds_for_class k (y_order : seq nat) c :
  0 < k -> size (Sk.folds_for_class k y_order c) = count_mem c y_order.
Proof.
move=> k0; rewrite /Sk.folds_for_class size_flatten /shape -map_comp.
pose lab := [seq j %% k | j <- iota 0 (size y_order)].
have slab : size lab = size y_order by rewrite size_map size_iota.
have alab : all (fun f => f < k) lab.
  by rewrite all_map; apply/allP => j _ /=; rewrite ltn_pmod.
rewrite sumnE big_map -[RHS](sum_count_mask _ slab alab).
rewrite /index_iota subn0; apply: eq_bigr => i _.
by rewrite /= size_nseq /Sk.allocation strideE.
Qed.

Lemma all_folds_for_class k (y_order : seq nat) c :
  all (fun f => f < k) (Sk.folds_for_class k y_order c).
Proof.
apply/allP => f /flattenP [blk /mapP [i]].
rewrite mem_iota add0n /= => lti ->.
by rewrite mem_nseq => /andP [_ /eqP ->].
Qed.


Lemma size_assign_mask (m : bitseq) vals a :
  size (Sk.assign_mask m vals a) = size a.
Proof.
elim: m vals a => [|b m IH] vals [|x a] //=.
by case: b => /=; rewrite IH.
Qed.

Section Loop.

Variables (k : nat) (y_enc y_order : seq nat).
Hypothesis k_gt0 : 0 < k.
Hypothesis order_count : forall c, count_mem c y_order = count_mem c y_enc.

Local Notation treated := (treated k).

Lemma treated_assign_mask c (done : pred nat) ye vals tf :
  all (fun f => f < k) vals -> treated ye done tf ->
  treated ye (predU1 c done)
    (Sk.assign_mask [seq e == c | e <- ye] vals tf).
Proof.
rewrite /treated.
elim: ye vals tf => [|e ye IH] vals [|x tf] //= lt_vals /andP [hx htf].
have lt_head : head 0 vals < k by case: vals lt_vals => //= v vals /andP [].
have lt_tail : all (fun f => f < k) (behead vals).
  by case: vals lt_vals {lt_head} => //= v vals /andP [].
case: (eqVneq e c) => [ec|nec] /=.
  by rewrite lt_head implybT IH.
by rewrite (negbTE nec) /= hx IH.
Qed.

Lemma assign_classesP cs (done : pred nat) g tf :
  size tf = size y_enc -> treated y_enc done tf ->
  exists tf' g',
    [/\ Sk.assign_classes k y_enc y_order cs g tf = Ok (tf', g') :> result (_ * rng_state G),
        size tf' = size y_enc
      & treated y_enc (fun e => done e || (e \in cs)) tf'].
Proof.
elim: cs done g tf => [|c cs IH] done g tf stf htf /=.
  exists tf, g; split=> //.
  by apply: sub_all htf => p /=; rewrite orbF.
case E: (shuffle g (Sk.folds_for_class k y_order c)) => [folds g1].
have sf : size folds = count id [seq e == c | e <- y_enc].
  have := size_shuffle g (Sk.folds_for_class k y_order c); rewrite E /= => ->.
  by rewrite size_folds_for_class // order_count count_map.
have ltf : all (fun f => f < k) folds.
  have := all_shuffle g (all_folds_for_class k y_order c).
  by rewrite E.
rewrite /Sk.setitem_mask sf eqxx /=.
have [|tf' [g' [-> stf' htf']]] :=
  IH (predU1 c done) g1 (Sk.assign_mask [seq e == c | e <- y_enc] folds tf)
     _ (treated_assign_mask c ltf htf).
  by rewrite size_assign_mask.
exists tf', g'; split=> //.
apply: sub_all htf' => p /=.
by rewrite in_cons orbA [done _ || _]orbC.
Qed.

End Loop.


Lemma y_encoded_lt (y : seq nat) :
  all (fun e => e < size (Sk.classes y)) (Sk.y_encoded y).
Proof.
rewrite /Sk.y_encoded all_map; apply/allP => c cy /=.
by rewrite index_mem /Sk.classes mem_rev mem_undup mem_rev.
Qed.

Lemma make_test_foldsP k (g : rng_state G) (y : seq nat) :
  0 < k ->
  ~~ all (fun c => c < k) (Sk.bincount (Sk.y_encoded y) (size (Sk.classes y))) ->
  exists tf g',
    [/\ Sk.make_test_folds k g y = Ok (tf, g'), size tf = size y
      & all (fun f => f < k) tf].
Proof.
move=> k0 /negbTE nsmall; rewrite /Sk.make_test_folds nsmall.
set ye := Sk.y_encoded y; set cs := iota 0 _.
have oc c : count_mem c (sort leq ye) = count_mem c ye.
  by apply/permP; rewrite perm_sort.
have s0 : size (nseq (size y) 0) = size ye by rewrite size_nseq size_map.
have t0 : treated k ye pred0 (nseq (size y) 0) by apply/allP.
have [tf [g' [-> stf htf]]] := assign_classesP k0 oc cs g s0 t0.
exists tf, g'; split=> //; first by rewrite stf size_map.
rewrite -(@unzip2_zip _ _ ye tf) ?stf // all_map.
apply/allP => p pin; have /= := allP htf p pin.
suff -> : p.1 \in cs by [].
have /(allP (y_encoded_lt y)) : p.1 \in ye.
  by rewrite -(@unzip1_zip _ _ ye tf) ?stf //; apply: map_f.
by rewrite mem_iota.
Qed.

Lemma make_test_folds_small k (g : rng_state G) (y : seq nat) :
  all (fun c => c < k) (Sk.bincount (Sk.y_encoded y) (size (Sk.classes y))) ->
  Sk.make_test_folds k g y = Raise ValueError.
Proof. by rewrite /Sk.make_test_folds => ->. Qed.

Lemma count_mask_negb T (a : pred T) (m : bitseq) (s : seq T) :
  size m = size s ->
  count a (mask [seq ~~ b | b <- m] s) + count a (mask m s) = count a s.
Proof.
elim: m s => [|b m IH] [|x s] //= [/IH <-].
by case: b => /=; [rewrite addnCA | rewrite addnA].
Qed.

Lemma size_iter_splits k N tf : size (Sk.iter_splits k N tf) = k.
Proof. by rewrite /Sk.iter_splits size_map size_iota. Qed.

Lemma iter_splits_pair k N tf p :
  size tf = N ->
  p \in Sk.iter_splits k N tf -> perm_eq (p.1 ++ p.2) (iota 0 N).
Proof.
move=> stf /mapP [i _ ->] /=; apply/permP => a.
by rewrite count_cat count_mask_negb // size_map size_iota.
Qed.

Lemma iter_splits_cover k N tf :
  size tf = N -> all (fun f => f < k) tf ->
  perm_eq (flatten (unzip2 (Sk.iter_splits k N tf))) (iota 0 N).
Proof.
move=> stf ltk; apply/permP => a.
rewrite count_flatten sumnE /Sk.iter_splits /unzip2 -!map_comp big_map.
have sN : size tf = size (iota 0 N) by rewrite size_iota.
rewrite -[RHS](sum_count_mask a sN ltk) /index_iota subn0.
by apply: eq_bigr.
Qed.

Lemma size_pmap_some (l : seq (option nat)) :
  all isSome l -> size (pmap id l) = size l.
Proof.
move=> al; rewrite size_pmap; apply/eqP; rewrite -all_count.
by apply: sub_all al => x.
Qed.

Lemma split_okP (g : rng_state G) random_state k N y splits :
  Sk.split g random_state k N y = Ok splits ->
  exists tf, [/\ 1 < k, size tf = N, all (fun f => f < k) tf
               & splits = Sk.iter_splits k N tf].
Proof.
rewrite /Sk.split; case: (leqP k 1) => // k1; case: eqP => //= sy.
case: (ltnP N k) => // _; case ay: (all isSome y) => //=.
have k0 : 0 < k by exact: ltnW.
case small: (all _ (Sk.bincount (Sk.y_encoded (pmap id y)) _)).
  by rewrite (make_test_folds_small _ small).
have [tf [g' [-> stf ltf]]] :=
  make_test_foldsP (check_random_state random_state g) k0 (negbT small).
move=> [<-]; exists tf; split=> //.
by rewrite stf size_pmap_some.
Qed.

Lemma split_returns (g : rng_state G) random_state k N y :
  1 < k -> size y = N -> k <= N -> all isSome y ->
  ~~ all (fun c => c < k)
       (Sk.bincount (Sk.y_encoded (pmap id y)) (size (Sk.classes (pmap id y)))) ->
  returns (Sk.split g random_state k N y).
Proof.
move=> k1 sy kN ay nsmall.
rewrite /Sk.split leqNgt k1 sy eqxx ltnNge kN ay /=.
have k0 : 0 < k by exact: ltnW.
by have [tf [g' [-> _ _]]] :=
  make_test_foldsP (check_random_state random_state g) k0 nsmall.
Qed.

Lemma split_small (g : rng_state G) random_state k N y :
  all (fun c => c < k)
      (Sk.bincount (Sk.y_encoded (pmap id y)) (size (Sk.classes (pmap id y)))) ->
  Sk.split g random_state k N y = Raise ValueError.
Proof.
move=> small; rewrite /Sk.split; do 4![case: ifP => // _].
by rewrite (make_test_folds_small _ small).
Qed.

(* The class counts scikit-learn tests are the member counts of the labels. *)
Lemma all_bincount k (y : seq nat) :
  all (fun c => c < k) (Sk.bincount (Sk.y_encoded y) (size (Sk.classes y)))
  = all (fun c => count_mem c y < k) y.
Proof.
set cl := Sk.classes y.
have ucl : uniq cl by rewrite /cl /Sk.classes rev_uniq undup_uniq.
have mcl : cl =i y by move=> c; rewrite /cl /Sk.classes mem_rev mem_undup mem_rev.
transitivity (all (fun c => count_mem c y < k) cl); last exact: eq_all_r.
rewrite /Sk.bincount all_map -[cl in RHS](mkseq_nth 0) /mkseq all_map.
apply: eq_in_all => j; rewrite mem_iota add0n /= => ltj.
rewrite /Sk.y_encoded count_map; congr (_ < k).
apply: eq_in_count => c; rewrite -mcl /= => cin.
apply/eqP/eqP => [<-|->]; first by rewrite nth_index.
by rewrite index_uniq.
Qed.

End KFoldTheory.

Section CreateFoldsTheory.

Variable G : rng_model.
Variable R : realFieldType.
Variable T : Type.

Implicit Types (g : rng_state G) (data : seq T) (y : seq R).
Implicit Types (random_state : option nat).

Lemma size_sample g random_state data :
  size (Pd.sample g random_state data).1 = size data.
Proof.
rewrite /Pd.sample.
have := size_shuffle (check_random_state random_state g) data.
by case: (shuffle _ _).
Qed.


(* What the local table holds when line 408 has run: the rows in the drawn
   order, next to pd.cut(y) in the order of y. *)
Lemma binned_tableP g data y random_state tbl g1 :
  binned_table g data y random_state = Ok (tbl, g1) ->
  [/\ 0 < size data, size tbl = size data,
      unzip1 tbl = (Pd.sample g random_state data).1
    & Pd.cut y (trunc_log 2 (size data)).+1 = Ok (unzip2 tbl)].
Proof.
rewrite /binned_table; have := size_sample g random_state data.
case: (Pd.sample _ _ _) => rows g' /= srows.
rewrite /num_bins srows; case: (posnP (size data)) => [->|N0] //=.
case: (Pd.cut _ _) => [bins|e] //=; case: eqP => // sb [<- _].
by rewrite size_zip sb srows minnn unzip1_zip ?unzip2_zip ?sb ?srows.
Qed.

Lemma binned_table_ok g data y random_state :
  size y = size data -> 0 < size data ->
  returns (binned_table g data y random_state).
Proof.
move=> sy N0; rewrite /binned_table; have := size_sample g random_state data.
case: (Pd.sample _ _ _) => rows g' /= srows.
rewrite /num_bins srows eqn0Ngt N0 /=.
have := @cut_ok R y (trunc_log 2 (size data)).+1 isT; rewrite sy => /(_ N0).
case E: (Pd.cut _ _) => [bins|] //= _.
by have [_ ->] := cut_isSome E; rewrite sy eqxx.
Qed.


(* int(floor(1 + log2 N)) is the number of binary digits of N. *)
Lemma num_binsP N nb : num_bins N = Ok nb -> 2 ^ nb.-1 <= N < 2 ^ nb.
Proof.
rewrite /num_bins; case: (posnP N) => // N0 [<-] /=.
exact: trunc_log_bounds.
Qed.

Lemma create_foldsP g data y k random_state splits :
  create_folds g data y k random_state = Ok splits ->
  exists tf, [/\ 1 < k, size tf = size data, all (fun f => f < k) tf
               & splits = Sk.iter_splits k (size data) tf].
Proof.
rewrite /create_folds.
case E: (binned_table _ _ _ _) => [[tbl g1]|] //=.
have [_ stbl _ _] := binned_tableP E.
by rewrite stbl => /split_okP.
Qed.

(** C3: whenever create_folds returns for n_splits = k >= 2, it returns k
    (train, validation) pairs; each pair splits {0..N-1} into two disjoint
    sets whose union is the whole index set, and over the k pairs every
    index is in a validation set exactly once. *)
Theorem create_folds_partition g data y k random_state splits :
  1 < k -> create_folds g data y k random_state = Ok splits ->
  [/\ size splits = k,
      forall p, p \in splits -> perm_eq (p.1 ++ p.2) (iota 0 (size data))
    & perm_eq (flatten (unzip2 splits)) (iota 0 (size data))].
Proof.
move=> _ /create_foldsP [tf [k1 stf ltf ->]]; split.
- exact: size_iter_splits.
- by move=> p; apply: iter_splits_pair.
- exact: iter_splits_cover.
Qed.

Lemma create_folds_strata g data y random_state :
  size y = size data -> 0 < size data ->
  exists tbl g1,
    [/\ binned_table g data y random_state = Ok (tbl, g1),
        size tbl = size data, all isSome (unzip2 tbl)
      & pmap id (unzip2 tbl) = strata y (size data)].
Proof.
move=> sy N0; have := binned_table_ok g random_state sy N0.
case E: (binned_table _ _ _ _) => [[tbl g1]|] // _.
have [_ stbl _ cutE] := binned_tableP E.
exists tbl, g1; split=> //; first by have [] := cut_isSome cutE.
by rewrite /strata cutE.
Qed.

(** C5 (as amended): create_folds has no stratum-size check of its own.
    For a table of N >= n_splits >= 2 rows with as many targets, it
    returns a fold assignment as soon as one stratum has n_splits members
    or more, however small the other strata are; it raises (ValueError,
    from scikit-learn) when every stratum has fewer members than
    n_splits. *)
Theorem create_folds_small_strata g data y k random_state :
  size y = size data -> 1 < k -> k <= size data ->
  let s := strata y (size data) in
  (has (fun c => k <= count_mem c s) s ->
     returns (create_folds g data y k random_state))
  /\ (all (fun c => count_mem c s < k) s ->
        create_folds g data y k random_state = Raise ValueError).
Proof.
move=> sy k1 kN /=.
have N0 : 0 < size data by apply: leq_trans kN; exact: ltnW.
have [tbl [g1 [E stbl some sE]]] := create_folds_strata g random_state sy N0.
rewrite /create_folds E /= -sE; split=> [big|small].
  apply: split_returns => //; rewrite ?size_map ?stbl //.
  rewrite all_bincount -has_predC; apply: sub_has big => c /=.
  by rewrite -leqNgt.
by apply: split_small; rewrite all_bincount.
Qed.

(** C8: with a seed given, what create_folds returns does not depend on
    the state of the global generator, so two calls on the same
    (data, targets, n_splits, seed) return the same folds; and netflix
    is a function of its arguments. *)
Theorem folds_and_weights_deterministic :
  (forall g g' data y k seed,
     create_folds g data y k (Some seed) = create_folds g' data y k (Some seed))
  /\ (forall (es es' : seq R) ps ps' e0 e0' l l',
        es = es' -> ps = ps' -> e0 = e0' -> l = l' ->
        netflix es ps e0 l = netflix es' ps' e0' l').
Proof.
split; last by move=> es es' ps ps' e0 e0' l l' -> -> -> ->.
move=> g g' data y k seed; rewrite /create_folds /binned_table /Pd.sample /=.
case: (shuffle _ _) => rows g1 /=.
case: (num_bins _) => //= nb; case: (Pd.cut _ _) => //= bins.
by case: ifP.
Qed.

End CreateFoldsTheory.

(* ------------------------------------------------------------------ *)
(* Worked inputs, over the rationals                                   *)
(* ------------------------------------------------------------------ *)

Local Open Scope ring_scope.

(** C2: create_folds attaches pd.cut(y) to the shuffled table by position.
    For four rows with targets y = [0, 0, 1, 1] (three bins, labels
    0, 0, 2, 2) and a shuffle that reverses the rows, the table holds the
    input rows 3, 2, 1, 0 with the labels 0, 0, 2, 2 in this order: rows 3
    and 2, whose own targets lie in bin 2, carry label 0, and rows 1 and 0
    carry label 2. The folds are then drawn from these labels. *)
Theorem create_folds_bins_misaligned :
  [/\ Pd.cut ex_y4' 3 = Ok [:: Some 0; Some 0; Some 2; Some 2]%N,
      binned_table (G := reversing_rng) tt ex_rows4 ex_y4' (Some 0%N)
      = Ok ([:: (3, Some 0); (2, Some 0); (1, Some 2); (0, Some 2)]%N, tt)
    & create_folds (G := reversing_rng) tt ex_rows4 ex_y4' 2 (Some 0%N)
      = Ok [:: ([:: 0; 2], [:: 1; 3]); ([:: 1; 3], [:: 0; 2])]%N].
Proof. by split; vm_compute. Qed.

(** C5 (as stated) fails: with targets [0, 0, 0, 1] and n_splits = 2 the
    stratum of the target 1 has one member, and create_folds returns a
    fold assignment. *)
Lemma create_folds_small_stratum_returns :
  has (fun c => (count_mem c (strata ex_y4 4) < 2)%N) (strata ex_y4 4)
  /\ create_folds (G := reversing_rng) tt ex_rows4 ex_y4 2 (Some 0%N)
     = Ok ex_folds4.
Proof. by split; vm_compute. Qed.

(* ================================================================== *)
(* Further properties of netflix                                       *)
(* ================================================================== *)

Section RidgeTheory.

Variable R : realFieldType.

Implicit Types (m n : nat).


Lemma col_of_seqK n (v : seq R) : size v = n -> seq_of_col (col_of_seq n v) = v.
Proof.
move=> sv; apply: (@eq_from_nth _ 0).
  by rewrite /seq_of_col size_map size_enum_ord.
move=> k; rewrite /seq_of_col size_map size_enum_ord => ltk.
rewrite (nth_map (Ordinal ltk)) ?size_enum_ord //.
by rewrite -[k in LHS]/(val (Ordinal ltk)) nth_ord_enum mxE.
Qed.

Section Objective.

Variables (m n : nat) (ps : seq (seq R)) (y : seq R).
Hypothesis size_ps : size ps = m.
Hypothesis size_y : size y = n.

Local Notation X := (spec_X m n ps).
Local Notation ycol := (col_of_seq n y).





End Objective.





Section ReturnedWeights.

Variables (m n : nat) (es : seq R) (ps : seq (seq R)) (e0 l : R).
Hypothesis size_es : size es = m.
Hypothesis size_ps : size ps = m.
Hypothesis m_gt0 : (0 < m)%N.
Hypothesis all_n : all (fun p => size p == n) ps.

Local Notation X := (spec_X m n ps).
Local Notation A := (X^T *m X + (l * n%:R) *: 1%:M).
Local Notation w := (spec_w m n es ps e0 l).



End ReturnedWeights.










End RidgeTheory.

Section BroadcastTheory.

Variable R : realFieldType.

Lemma broadcast_dim1r a : Np.broadcast_dim a 1 = Ok a.
Proof. by rewrite /Np.broadcast_dim; case: eqP => [->|_] //; case: eqP. Qed.

Lemma broadcast_dim1l b : Np.broadcast_dim 1 b = Ok b.
Proof. by rewrite /Np.broadcast_dim eq_sym; case: eqP => [->|]. Qed.

Lemma broadcast_dim_raise a b :
  a != b -> a != 1%N -> b != 1%N -> Np.broadcast_dim a b = Raise ValueError.
Proof. by rewrite /Np.broadcast_dim => /negbTE -> /negbTE -> /negbTE ->. Qed.

(* The start of netflix, up to np.stack. *)
Lemma netflix_stacked n (es : seq R) ps e0 l :
  (0 < size ps)%N -> all (fun p => size p == n) ps ->
  netflix es ps e0 l =
  let m := size es in
  let X := Np.transpose
             (Np.Array2 (size ps) n (fun i j => nth 0 (nth [::] ps i) j)) in
  do d <- Np.broadcast1 (fun a b => a - b)
            (Np.scalar_add (n%:R * e0 ^+ 2) (Np.sum_axis0 (Np.square X)))
            (Np.scalar_mul n%:R [seq e ^+ 2 | e <- es]);
  let pTy := Np.scalar_mul 2^-1 d in
  do G <- Np.dot (Np.transpose X) X;
  do A <- Np.broadcast2 +%R G (Np.scalar_mul2 (l * n%:R) (Np.eye R m));
  do w <- Np.dotv (Np.pinv A) pTy;
  do out <- Np.dotv X w;
  Ok (out, w).
Proof.
move=> k0 alln; rewrite /netflix (stackE k0 alln).
case: ps k0 alln => [|p0 ps'] // _ /andP [/eqP np0 _].
by rewrite !bindE np0.
Qed.

(** X5: when the number of scores differs from the number of prediction
    vectors and is not 1, netflix raises ValueError (from broadcasting or
    from the final product). *)
Theorem netflix_score_count_mismatch n (es : seq R) ps e0 l :
  (0 < size ps)%N -> all (fun p => size p == n) ps ->
  size es != size ps -> size es != 1%N ->
  netflix es ps e0 l = Raise ValueError.
Proof.
move=> k0 alln mk m1; rewrite (netflix_stacked _ _ _ k0 alln); cbv zeta.
rewrite /Np.broadcast1 size_scalar_add size_scalar_mul size_map /=.
case: (eqVneq (size ps) 1%N) => [k1|nk1].
  rewrite k1 broadcast_dim1l bindE /Np.dot eqxx bindE.
  rewrite /Np.broadcast2 /= !broadcast_dim1l !bindE.
  rewrite /Np.dotv /= size_scalar_mul size_mkseq eqxx bindE size_mkseq.
  by rewrite eq_sym (negbTE m1).
by rewrite broadcast_dim_raise // eq_sym.
Qed.


(** X6: with a single score and m prediction vectors netflix raises
    nothing: numpy broadcasts, the score is used for every model and l*n
    is added to every entry of X^T X (not to its diagonal only), and the
    weights returned are pinv(X^T X + l*n*ones) pTy, for np.linalg.pinv
    with its cutoff. *)
Theorem netflix_single_score_broadcast m n (e : R) ps e0 l :
  size ps = m -> (0 < m)%N -> all (fun p => size p == n) ps ->
  let X := spec_X m n ps in
  let w := pinv_mx (X^T *m X + const_mx (l * n%:R))
           *m spec_pTy m n (nseq m e) ps e0 in
  netflix [:: e] ps e0 l = Ok (seq_of_col (X *m w), seq_of_col w).
Proof.
move=> sps; move: sps => <- m0 alln /=.
rewrite (netflix_stacked _ _ _ m0 alln); cbv zeta.
set S := Np.Array2 _ _ _; set X := Np.transpose S.
rewrite /Np.broadcast1 size_scalar_add size_scalar_mul /= broadcast_dim1r bindE.
rewrite /Np.dot eqxx bindE /Np.broadcast2 /= !broadcast_dim1r !bindE.
set A := Np.Array2 _ _ _; set pTy := Np.scalar_mul _ _.
have spTy : size pTy = size ps by rewrite /pTy size_scalar_mul size_mkseq.
have AE : Np.to_mx A = (spec_X (size ps) n ps)^T *m spec_X (size ps) n ps
                       + const_mx (l * n%:R).
  apply/matrixP => i j; rewrite !mxE /A /= !bidx_lt // big_mkord.
  congr (_ + _); first by apply: eq_bigr => k _; rewrite !mxE.
  by rewrite /Np.bidx /= mulr1.
have pTyE (k : 'I_(size ps)) :
    nth 0 pTy k = spec_pTy (size ps) n (nseq (size ps) e) ps e0 k 0.
  rewrite /pTy /Np.scalar_mul (nth_map 0) ?size_mkseq // nth_mkseq // !mxE.
  congr (_ * (_ - _)).
    rewrite bidx_lt // /Np.scalar_add (nth_map 0) ?size_sum_axis0 //.
    rewrite nth_mkseq //; congr (_ + _); rewrite /= [RHS](big_nth 0).
    by have /allP /(_ _ (mem_nth [::] (ltn_ord k))) /eqP -> := alln.
  by rewrite /Np.bidx /= nth_nseq ltn_ord.
set W := pinv_mx _ *m _.
have wE : mkseq (fun i => \sum_(0 <= k < Np.shape1 (Np.pinv A))
                     Np.item (Np.pinv A) i k * pTy`_k) (Np.shape0 (Np.pinv A))
          = seq_of_col W.
  rewrite mkseq_ord; apply: eq_map => i; rewrite mxE big_mkord.
  apply: eq_bigr => k _; rewrite pTyE; congr (_ * _).
  by rewrite /Np.pinv /Np.of_mx /= !valK AE.
rewrite /Np.dotv spTy eqxx bindE wE size_seq_of_col eqxx bindE.
congr (Ok (_, _)).
rewrite mkseq_ord; apply: eq_map => i; rewrite mxE big_mkord.
apply: eq_bigr => k _; rewrite mxE; congr (_ * _).
by rewrite nth_seq_of_col.
Qed.


(** X7: with a single model p netflix returns the prediction rescaled:
    the weight is w = 0.5 * (n*e0^2 + s - n*e^2) / (s + l*n) for
    s = sum(p^2), and 0 when s + l*n = 0, and the blend is w * p. *)
Theorem netflix_single_model_closed_form (p : seq R) e e0 l :
  netflix [:: e] [:: p] e0 l
  = Ok ([seq x * single_weight p e e0 l | x <- p],
        [:: single_weight p e e0 l]).
Proof.
have alln : all (fun q => size q == size p) [:: p] by rewrite /= eqxx.
have ses : size [:: e] = 1%N by [].
have sps : size [:: p] = 1%N by [].
rewrite (netflix_valid e0 l ses sps isT alln).
have wE : spec_w 1 (size p) [:: e] [:: p] e0 l = (single_weight p e e0 l)%:M.
  rewrite /spec_w spec_ridge_single pinv_mx_scalar mul_scalar_mx.
  by apply/matrixP => i j; rewrite !ord1 !mxE /= mulr1n.
rewrite /spec_blend wE; congr (Ok (_, _)); last first.
  apply: (@eq_from_nth _ 0); first by rewrite size_seq_of_col.
  by rewrite size_seq_of_col; case=> // _; rewrite (nth_seq_of_col _ ord0) mxE.
apply: (@eq_from_nth _ 0); first by rewrite size_seq_of_col size_map.
move=> k; rewrite size_seq_of_col => ltk.
rewrite (nth_seq_of_col _ (Ordinal ltk)) (nth_map 0) //.
by rewrite mxE big_ord1 !mxE.
Qed.

End BroadcastTheory.

Section ModelOrder.

Variable R : realFieldType.

Variables (m n : nat) (s : seq nat).
Hypothesis s_perm : perm_eq s (iota 0 m).

Let size_s : size s = m.
Proof. by rewrite (perm_size s_perm) size_iota. Qed.

Let s_lt j : (j < m)%N -> (nth 0%N s j < m)%N.
Proof.
move=> ltj; have : nth 0%N s j \in s by rewrite mem_nth ?size_s.
by rewrite (perm_mem s_perm) mem_iota.
Qed.

Let s_uniq : uniq s.
Proof. by rewrite (perm_uniq s_perm) iota_uniq. Qed.

Local Notation select_mx := (select_mx R m s).

Lemma sum_select (F : 'I_m -> R) (j : 'I_m) :
  \sum_i F i * select_mx i j = F (Ordinal (s_lt (ltn_ord j))).
Proof.
rewrite (bigD1 (Ordinal (s_lt (ltn_ord j)))) //= mxE eqxx mulr1.
rewrite big1 ?addr0 // => i /negbTE ne.
by rewrite mxE -val_eqE /= in ne *; rewrite ne mulr0.
Qed.

Lemma select_mx_orth : select_mx^T *m select_mx = 1%:M.
Proof.
apply/matrixP => j j'; rewrite mxE.
under eq_bigr => i _ do rewrite mxE.
rewrite sum_select !mxE /= -val_eqE /=.
by rewrite nth_uniq ?size_s // eq_sym.
Qed.


Variables (es : seq R) (ps : seq (seq R)) (e0 l : R).
Hypothesis size_es : size es = m.
Hypothesis size_ps : size ps = m.

Local Notation es' := [seq nth 0 es i | i <- s].
Local Notation ps' := [seq nth [::] ps i | i <- s].
Local Notation P := select_mx.

Lemma spec_X_models : spec_X m n ps' = spec_X m n ps *m P.
Proof.
apply/matrixP => k j; rewrite [RHS]mxE sum_select !mxE /=.
by rewrite (nth_map 0%N) ?size_s.
Qed.

Lemma spec_pTy_models :
  spec_pTy m n es' ps' e0 = P^T *m spec_pTy m n es ps e0.
Proof.
apply/matrixP => j k; rewrite ord1 [RHS]mxE.
under eq_bigr => i _ do rewrite mxE mulrC.
by rewrite sum_select !mxE /= !(nth_map 0%N) ?size_s.
Qed.

Lemma spec_w_models :
  spec_w m n es' ps' e0 l = P^T *m spec_w m n es ps e0 l.
Proof.
have PtP := select_mx_orth; have PPt : P *m P^T = 1%:M by exact: mulmx1C.
rewrite /spec_w spec_X_models spec_pTy_models trmx_mul.
set A := _^T *m _ + _.
have -> : P^T *m (spec_X m n ps)^T *m (spec_X m n ps *m P)
          + (l * n%:R) *: 1%:M = P^T *m A *m P.
  rewrite /A mulmxDr mulmxDl !mulmxA -scalemxAr -scalemxAl mulmx1.
  by rewrite PtP.
rewrite pinv_mx_conj // !mulmxA -[_ *m P *m P^T]mulmxA PPt mulmx1.
by rewrite -!mulmxA.
Qed.

Lemma spec_blend_models :
  spec_blend m n es' ps' e0 l = spec_blend m n es ps e0 l.
Proof.
have PPt : P *m P^T = 1%:M by apply: mulmx1C; exact: select_mx_orth.
rewrite /spec_blend spec_w_models spec_X_models.
by rewrite mulmxA -[_ *m P *m P^T]mulmxA PPt mulmx1.
Qed.

Lemma seq_of_col_select (w : 'cV[R]_m) :
  seq_of_col (P^T *m w) = [seq nth 0 (seq_of_col w) i | i <- s].
Proof.
apply: (@eq_from_nth _ 0); first by rewrite size_seq_of_col size_map size_s.
move=> j; rewrite size_seq_of_col => ltj.
rewrite (nth_seq_of_col _ (Ordinal ltj)) (nth_map 0%N) ?size_s // mxE.
under eq_bigr => i _ do rewrite mxE mulrC.
rewrite sum_select (nth_seq_of_col _ (Ordinal (s_lt ltj))).
by congr (w _ _); apply: val_inj.
Qed.

End ModelOrder.

Section ModelOrderTheorem.

Variable R : realFieldType.

(** X8: passing the models in another order (scores and prediction
    vectors reordered together) leaves the blend unchanged and reorders
    the weights in the same way. *)
Theorem netflix_model_order m n (s : seq nat) (es : seq R) ps e0 l :
  size es = m -> size ps = m -> (0 < m)%N ->
  all (fun p => size p == n) ps -> perm_eq s (iota 0 m) ->
  exists out w,
    [/\ netflix es ps e0 l = Ok (out, w)
      & netflix [seq nth 0 es i | i <- s] [seq nth [::] ps i | i <- s] e0 l
        = Ok (out, [seq nth 0 w i | i <- s])].
Proof.
move=> ses sps m0 alln sperm.
exists (seq_of_col (spec_blend m n es ps e0 l)).
exists (seq_of_col (spec_w m n es ps e0 l)).
split; first exact: netflix_valid.
have ss : size s = m by rewrite (perm_size sperm) size_iota.
have ses' : size [seq nth 0 es i | i <- s] = m by rewrite size_map.
have sps' : size [seq nth [::] ps i | i <- s] = m by rewrite size_map.
have alln' : all (fun p => size p == n) [seq nth [::] ps i | i <- s].
  rewrite all_map; apply/allP => i; rewrite (perm_mem sperm) mem_iota /=.
  by rewrite add0n -sps => lti; apply: (allP alln); rewrite mem_nth.
rewrite (netflix_valid _ _ ses' sps' m0 alln').
by rewrite (spec_blend_models _ sperm) // (spec_w_models _ sperm) //
           (seq_of_col_select sperm).
Qed.

End ModelOrderTheorem.

Local Close Scope ring_scope.

(* ================================================================== *)
(* Further properties of create_folds                                  *)
(* ================================================================== *)

Section CreateFoldsMore.

Variable G : rng_model.
Variable R : realFieldType.
Variable T : Type.

Implicit Types (g : rng_state G) (data : seq T) (y : seq R).
Implicit Types (random_state : option nat).

(* create_folds without the table: only the number of rows of data is
   used. *)
Lemma create_foldsE g data y k random_state :
  create_folds g data y k random_state =
  let N := size data in
  let g1 := global_after random_state g
              (permutation (check_random_state random_state g) N).2 in
  do nb <- num_bins N;
  do bins <- Pd.cut y nb;
  if size bins == N then Sk.split g1 random_state k N bins
  else Raise ValueError.
Proof.
rewrite /create_folds /binned_table /Pd.sample.
have := size_shuffle (check_random_state random_state g) data.
rewrite /shuffle; case: (permutation _ _) => locs g' /= srows.
rewrite srows; case: (num_bins _) => //= nb; case: (Pd.cut _ _) => //= bins.
case: eqP => //= sb.
by rewrite size_zip sb srows minnn unzip2_zip // sb srows.
Qed.


Lemma has_big_stratum k (s : seq nat) :
  has (fun c => k <= count_mem c s) s
  = ~~ all (fun c => count_mem c s < k) s.
Proof. by rewrite -has_predC; apply: eq_has => c /=; rewrite -leqNgt. Qed.

Lemma split_cases (g : rng_state G) random_state k N (bins : seq (option nat)) :
  let ok := [&& 1 < k, size bins == N, k <= N, all isSome bins
               & has (fun c => k <= count_mem c (pmap id bins)) (pmap id bins)] in
  if ok then is_true (returns (Sk.split g random_state k N bins))
  else Sk.split g random_state k N bins = Raise ValueError.
Proof.
rewrite /= has_big_stratum -all_bincount; case: ifP.
  by case/and5P => k1 /eqP sb kN ab big; apply: split_returns.
rewrite /Sk.split [k <= 1]leqNgt [N < k]ltnNge.
case: (1 < k) => //=; case: eqP => //= _; case: (k <= N) => //=.
case: (all isSome bins) => //= /negbT; rewrite negbK => small.
by rewrite make_test_folds_small.
Qed.

(** X9: create_folds returns exactly when the table has N >= 1 rows, y has
    N entries, 2 <= n_splits <= N and some stratum has n_splits members or
    more; otherwise it raises OverflowError for an empty table and
    ValueError in every other case. *)
Theorem create_folds_returns_iff g data y k random_state :
  let N := size data in
  let s := strata y N in
  let ok := [&& 0 < N, size y == N, 1 < k, k <= N
               & has (fun c => k <= count_mem c s) s] in
  if ok then is_true (returns (create_folds g data y k random_state))
  else create_folds g data y k random_state
       = Raise (if N == 0 then OverflowError else ValueError).
Proof.
rewrite create_foldsE /= /num_bins /strata.
case: (posnP (size data)) => [->|N0] //=.
set nb := (trunc_log 2 (size data)).+1.
case E: (Pd.cut y nb) => [bins|e] /=; last first.
  rewrite !andbF; move: E; rewrite /Pd.cut /=.
  by case: (y) => [[<-]|].
have [ab sb] := cut_isSome E; rewrite sb.
have := split_cases
  (global_after random_state g
     (permutation (check_random_state random_state g) (size data)).2)
  random_state k (size data) bins.
rewrite /= sb ab /=; case: eqP => [sy|_] /=; last by rewrite !andbF.
by [].
Qed.

End CreateFoldsMore.

Section RowCount.

Variable G : rng_model.
Variable R : realFieldType.

(** X10: create_folds uses its table only through the number of rows: two
    tables with as many rows give the same folds (same targets, n_splits,
    seed and generator state). *)
Theorem create_folds_uses_row_count T T' (g : rng_state G)
    (data : seq T) (data' : seq T') (y : seq R) k random_state :
  size data = size data' ->
  create_folds g data y k random_state
  = create_folds g data' y k random_state.
Proof. by move=> sd; rewrite !create_foldsE sd. Qed.

End RowCount.

(* ------------------------------------------------------------------ *)
(* How many of n consecutive positions fall into fold i of k.          *)
(* ------------------------------------------------------------------ *)

Section Residues.

Variables (k i : nat).
Hypothesis ltik : i < k.

Local Notation P := (fun j => j %% k == i).

Lemma count_residue_shift a n :
  count P (iota (a + k) n) = count P (iota a n).
Proof.
rewrite addnC iotaDl count_map; apply: eq_count => j /=.
by rewrite modnDl.
Qed.

Lemma count_residue_small r : r <= k -> count P (iota 0 r) = (i < r).
Proof.
move=> rk; rewrite -[RHS]/((0 <= i < 0 + r) : nat) -mem_iota.
rewrite -(count_uniq_mem _ (iota_uniq 0 r)).
apply: eq_in_count => j; rewrite mem_iota add0n /= => ltj.
by rewrite modn_small // (leq_trans ltj).
Qed.

Lemma count_residue_period a : count P (iota a k) = 1.
Proof.
elim: a => [|a IH]; first by rewrite count_residue_small // ltik.
have E1 : count P (iota a k.+1) = P a + count P (iota a.+1 k) by [].
have E2 : count P (iota a k.+1) = count P (iota a k) + P (a + k).
  by rewrite -addn1 iotaD count_cat /= addn0.
move: E1; rewrite E2 IH /= modnDr addnC => /eqP.
by rewrite eqn_add2l => /eqP <-.
Qed.

Lemma count_residue_le1 a r : r <= k -> count P (iota a r) <= 1.
Proof.
move=> rk; rewrite -(count_residue_period a).
have -> : iota a k = iota a r ++ iota (a + r) (k - r) by rewrite -iotaD subnKC.
by rewrite count_cat leq_addr.
Qed.

Lemma count_residue a n :
  count P (iota a n) = n %/ k + count P (iota a (n %% k)).
Proof.
rewrite {1}(divn_eq n k); elim: (n %/ k) a => [|q IH] a.
  by rewrite mul0n !add0n.
rewrite mulSn -addnA iotaD count_cat count_residue_period IH.
by rewrite count_residue_shift add1n addSn.
Qed.

Lemma count_residue_bounds a n :
  n %/ k <= count P (iota a n) <= n %/ k + (n %% k != 0).
Proof.
rewrite count_residue leq_addr leq_add2l /=.
case: (posnP (n %% k)) => [->|r0] //=.
apply: count_residue_le1.
by rewrite ltnW // ltn_pmod // (leq_trans _ ltik).
Qed.

Lemma count_residue0 n : count P (iota 0 n) = n %/ k + (i < n %% k).
Proof.
rewrite count_residue count_residue_small // ltnW // ltn_pmod //.
exact: leq_trans ltik.
Qed.

End Residues.

(* ------------------------------------------------------------------ *)
(* The members of a class in the sorted labels form one block.         *)
(* ------------------------------------------------------------------ *)

Section Blocks.

Lemma sorted_blocks (s : seq nat) c :
  sorted leq s ->
  s = [seq x <- s | x < c] ++ [seq x <- s | x == c] ++ [seq x <- s | c < x].
Proof.
move=> ss; apply: (sorted_eq leq_trans anti_leq) => //.
  rewrite (sorted_pairwise leq_trans) !pairwise_cat.
  rewrite -!(sorted_pairwise leq_trans) !(sorted_filter leq_trans) //.
  rewrite allrel_catr !andbT -andbA; apply/and3P; split; apply/allrelP => x z;
    rewrite !mem_filter => /andP [hx _] /andP [hz _].
  - by rewrite (eqP hz) ltnW.
  - by rewrite ltnW // (ltn_trans hx hz).
  - by rewrite (eqP hx) ltnW.
apply/permP => a; rewrite !count_cat.
elim: s {ss} => //= x s ->; case: (ltngtP x c) => _ /=.
- by rewrite addnA.
- by rewrite addnCA; congr (_ + _); rewrite addnCA.
- by rewrite addnCA; congr (_ + _); rewrite addnA.
Qed.

Lemma filter_pred1_nseq (s : seq nat) c :
  [seq x <- s | x == c] = nseq (count_mem c s) c.
Proof.
rewrite -size_filter; apply/all_pred1P.
by apply/allP => x; rewrite mem_filter => /andP [].
Qed.

Lemma mask_nseq T (m : bitseq) n (x : T) :
  size m = n -> mask m (nseq n x) = nseq (count id m) x.
Proof.
elim: m n => [|b m IH] [|n] //= [sm].
by case: b; rewrite /= IH.
Qed.

Lemma count_mask0 (m : bitseq) (s : seq nat) c :
  c \notin s -> count_mem c (mask m s) = 0.
Proof. by move=> cs; apply/count_memPn; apply: contra cs => /mem_mask. Qed.

Lemma count_stride_block k i (s : seq nat) c :
  sorted leq s ->
  Sk.allocation k s i c
  = count (fun j => j %% k == i)
      (iota (size [seq x <- s | x < c]) (count_mem c s)).
Proof.
move=> ss; rewrite /Sk.allocation /Sk.stride.
set A := [seq x <- s | x < c]; set L := count_mem c s.
have Es := sorted_blocks c ss; rewrite filter_pred1_nseq -/A -/L in Es.
set C := [seq x <- s | c < x] in Es.
have nA : c \notin A by rewrite mem_filter ltnn.
have nC : c \notin C by rewrite mem_filter ltnn.
rewrite {1 2}Es !size_cat size_nseq !iotaD !map_cat.
rewrite mask_cat ?size_map ?size_iota // mask_cat ?size_map ?size_iota ?size_nseq //.
rewrite !count_cat (count_mask0 _ nA) (count_mask0 _ nC) add0n addn0.
rewrite mask_nseq ?size_map ?size_iota // count_nseq /= eqxx mul1n.
by rewrite count_map.
Qed.

End Blocks.

(* ------------------------------------------------------------------ *)
(* What the loop of _make_test_folds writes for each class.            *)
(* ------------------------------------------------------------------ *)

Section Allocation.

Variable G : rng_model.

Lemma perm_shuffle (g : rng_state G) (a : seq nat) :
  perm_eq (shuffle g a).1 a.
Proof.
rewrite /shuffle; case E: (permutation g (size a)) => [locs g'] /=.
have := permutation_lt g (size a); rewrite E /= => lt.
have := permutationP g (size a); rewrite E /= => pl.
rewrite (take_rowsE 0 lt) -[X in perm_eq _ X](mkseq_nth 0).
exact: perm_map.
Qed.

Lemma mask_assign_mask (m : bitseq) vals a :
  size m = size a -> size vals = count id m ->
  mask m (Sk.assign_mask m vals a) = vals.
Proof.
elim: m vals a => [|b m IH] vals [|x a] //=; first by case: vals.
case: b => /= [] [sm]; last exact: IH.
by case: vals => [|v vals] //= [sv]; rewrite IH.
Qed.

Lemma mask_assign_mask_other (ye : seq nat) c c' vals a :
  c != c' ->
  mask [seq e == c' | e <- ye] (Sk.assign_mask [seq e == c | e <- ye] vals a)
  = mask [seq e == c' | e <- ye] a.
Proof.
move=> ncc; elim: ye vals a => [|e ye IH] vals [|x a] //=.
case: (eqVneq e c) => [->|nec] /=; first by rewrite (negbTE ncc) IH.
by case: (e == c'); rewrite IH.
Qed.

Lemma assign_classes_perm k (ye yo : seq nat) cs (g : rng_state G) tf tf' g' :
  uniq cs -> size tf = size ye ->
  Sk.assign_classes k ye yo cs g tf = Ok (tf', g') ->
  [/\ size tf' = size ye,
      forall c, c \in cs ->
        perm_eq (mask [seq e == c | e <- ye] tf') (Sk.folds_for_class k yo c)
    & forall c, c \notin cs ->
        mask [seq e == c | e <- ye] tf' = mask [seq e == c | e <- ye] tf].
Proof.
elim: cs g tf => [|c cs IH] g tf /=; first by move=> _ stf [<- _]; split.
case/andP => ncs ucs stf.
have := perm_shuffle g (Sk.folds_for_class k yo c).
case E: (shuffle g (Sk.folds_for_class k yo c)) => [folds g1] /= pf.
rewrite /Sk.setitem_mask; case: eqP => //= sf.
have st1 : size (Sk.assign_mask [seq e == c | e <- ye] folds tf) = size ye.
  by rewrite size_assign_mask.
case/(IH g1 _ ucs st1) => stf' inP outP; split=> // c'.
  rewrite in_cons; case: (eqVneq c' c) => [-> _|ncc] /=; last exact: inP.
  by rewrite outP // mask_assign_mask // size_map.
rewrite in_cons negb_or => /andP [ncc nin].
by rewrite outP // mask_assign_mask_other // eq_sym.
Qed.

Lemma count_folds_for_class k (yo : seq nat) i c :
  i < k ->
  count_mem i (Sk.folds_for_class k yo c) = Sk.allocation k yo i c.
Proof.
move=> ltik; rewrite /Sk.folds_for_class count_flatten -map_comp sumnE big_map.
rewrite (bigD1_seq i) ?iota_uniq ?mem_iota //= count_nseq /= eqxx mul1n.
rewrite big1 ?addn0 // => j /negbTE nji.
by rewrite count_nseq /= nji.
Qed.

Lemma make_test_folds_alloc k (g : rng_state G) (y : seq nat) tf g' :
  Sk.make_test_folds k g y = Ok (tf, g') ->
  size tf = size y /\
  forall c i, c < size (Sk.classes y) -> i < k ->
    count_mem i (mask [seq e == c | e <- Sk.y_encoded y] tf)
    = Sk.allocation k (sort leq (Sk.y_encoded y)) i c.
Proof.
rewrite /Sk.make_test_folds; case: ifP => // _.
have s0 : size (nseq (size y) 0) = size (Sk.y_encoded y).
  by rewrite size_nseq size_map.
case/(assign_classes_perm (iota_uniq 0 _) s0) => stf inP _; split.
  by rewrite stf size_map.
move=> c i ltc ltik; rewrite -count_folds_for_class //.
by apply/permP/inP; rewrite mem_iota.
Qed.

(* the labels of the rows of a fold, and the folds of the rows of a class *)
Lemma count_mask_swap (ye tf : seq nat) i c :
  size ye = size tf ->
  count_mem c (mask [seq f == i | f <- tf] ye)
  = count_mem i (mask [seq e == c | e <- ye] tf).
Proof.
elim: ye tf => [|e ye IH] [|f tf] //= [/IH E].
by case fi: (f == i); case ec: (e == c); rewrite /= ?fi ?ec E.
Qed.

Lemma mask_iota_nth (m : bitseq) (s : seq nat) :
  [seq nth 0 s p | p <- mask m (iota 0 (size s))] = mask m s.
Proof. by rewrite map_mask -/(mkseq _ _) mkseq_nth. Qed.

Lemma sum_count_mem n (s : seq nat) :
  all (fun x => x < n) s -> \sum_(0 <= c < n) count_mem c s = size s.
Proof.
move=> lt; rewrite -(count_predT s) -(sum_count_mask predT (erefl (size s)) lt).
apply: eq_bigr => c _.
by rewrite count_predT size_mask ?size_map // count_map; apply: eq_count => x /=.
Qed.

Lemma split_alloc (g : rng_state G) random_state k N y splits :
  Sk.split g random_state k N y = Ok splits ->
  let ye := Sk.y_encoded (pmap id y) in
  exists tf,
    [/\ 1 < k, size tf = N, all isSome y,
        splits = Sk.iter_splits k N tf
      & forall c i, c < size (Sk.classes (pmap id y)) -> i < k ->
          count_mem i (mask [seq e == c | e <- ye] tf)
          = Sk.allocation k (sort leq ye) i c].
Proof.
rewrite /Sk.split; case: (leqP k 1) => // k1; case: eqP => //= sy.
case: (ltnP N k) => // _; case ay: (all isSome y) => //=.
case E: (Sk.make_test_folds _ _ _) => [[tf g']|] //= [<-].
have [stf al] := make_test_folds_alloc E.
by exists tf; split=> //; rewrite stf size_pmap_some.
Qed.

End Allocation.

Section Balance.

Variable G : rng_model.
Variable R : realFieldType.
Variable T : Type.

Implicit Types (g : rng_state G) (data : seq T) (y : seq R).
Implicit Types (random_state : option nat).

Lemma create_folds_alloc g data y k random_state folds :
  create_folds g data y k random_state = Ok folds ->
  let N := size data in
  let s := strata y N in
  let ye := Sk.y_encoded s in
  exists tf,
    [/\ 1 < k, size tf = N, size s = N,
        folds = Sk.iter_splits k N tf
      & forall c i, c < size (Sk.classes s) -> i < k ->
          count_mem i (mask [seq e == c | e <- ye] tf)
          = Sk.allocation k (sort leq ye) i c].
Proof.
rewrite create_foldsE /= /num_bins /strata.
case: (posnP (size data)) => [->|N0] //=.
case E: (Pd.cut y _) => [bins|] //=; case: eqP => // sb.
case/split_alloc => tf [k1 stf ab -> al].
by exists tf; split=> //; rewrite size_pmap_some.
Qed.

Lemma nth_iter_splits k N tf i :
  i < k ->
  nth ([::], [::]) (Sk.iter_splits k N tf) i
  = (mask [seq ~~ b | b <- [seq f == i | f <- tf]] (iota 0 N),
     mask [seq f == i | f <- tf] (iota 0 N)).
Proof.
move=> ltik; rewrite /Sk.iter_splits.
by rewrite (nth_map 0) ?size_iota // nth_iota.
Qed.

Lemma all_mask (P : pred nat) (m : bitseq) (s : seq nat) :
  all P s -> all P (mask m s).
Proof. by move/allP => aP; apply/allP => x /mem_mask /aP. Qed.

Lemma index_eq (cl : seq nat) c x :
  c \in cl -> (index x cl == index c cl) = (x == c).
Proof.
move=> ccl; apply/eqP/eqP => [E|-> //].
have xcl : x \in cl by rewrite -index_mem E index_mem.
by rewrite -(nth_index 0 xcl) E nth_index.
Qed.

(** X11: when create_folds returns, the validation set of fold i holds
    N div k rows, and one more for the first N mod k folds; the training
    set holds the other rows of the N. *)
Theorem create_folds_fold_sizes g data y k random_state folds i :
  create_folds g data y k random_state = Ok folds -> i < k ->
  let N := size data in
  let fold := nth ([::], [::]) folds i in
  size fold.2 = N %/ k + (i < N %% k) /\ size fold.1 = N - size fold.2.
Proof.
move=> /create_folds_alloc [tf [k1 stf ss -> al]] ltik /=.
rewrite nth_iter_splits //=.
set m := [seq f == i | f <- tf].
have sm : size m = size (iota 0 (size data)) by rewrite size_map size_iota.
have E : size (mask [seq ~~ b | b <- m] (iota 0 (size data)))
         + size (mask m (iota 0 (size data))) = size data.
  by rewrite -!count_predT count_mask_negb // count_predT size_iota.
split; last exact: (canRL (addnK _) E).
set s := strata y (size data) in ss al; set ye := Sk.y_encoded s in al.
have sye : size ye = size tf by rewrite size_map ss.
rewrite size_mask // count_map.
rewrite -(sum_count_mask (pred1 i) sye (y_encoded_lt s)).
have -> : \sum_(0 <= c < size (Sk.classes s))
             count_mem i (mask [seq f == c | f <- ye] tf)
          = \sum_(0 <= c < size (Sk.classes s))
             count_mem c (Sk.stride i k (sort leq ye)).
  by apply: eq_big_nat => c /andP [_ ltc]; rewrite al.
have lts : all (fun x => x < size (Sk.classes s)) (Sk.stride i k (sort leq ye)).
  by rewrite all_mask // all_sort y_encoded_lt.
rewrite (sum_count_mem lts).
rewrite /Sk.stride size_mask ?size_map ?size_iota // count_map.
by rewrite size_sort sye stf count_residue0.
Qed.

(** X12: when create_folds returns, every stratum is spread evenly over
    the folds: of the L rows whose bin is c, the validation set of fold i
    holds L div k, or one more (only when k does not divide L). *)
Theorem create_folds_stratified g data y k random_state folds i c :
  create_folds g data y k random_state = Ok folds -> i < k ->
  let s := strata y (size data) in
  let L := count_mem c s in
  let held := count_mem c [seq nth 0 s p | p <- (nth ([::], [::]) folds i).2] in
  L %/ k <= held <= L %/ k + (L %% k != 0).
Proof.
move=> /create_folds_alloc [tf [k1 stf ss -> al]] ltik /=.
rewrite nth_iter_splits //=.
set s := strata y (size data) in ss al *; set ye := Sk.y_encoded s in al.
rewrite -ss mask_iota_nth.
case: (boolP (c \in s)) => [cs|ncs]; last first.
  by rewrite count_mask0 // (count_memPn ncs) div0n mod0n.
set cl := Sk.classes s in al.
have ccl : c \in cl by rewrite /cl /Sk.classes mem_rev mem_undup mem_rev.
have ltc : index c cl < size cl by rewrite index_mem.
have sye : size ye = size tf by rewrite size_map ss.
have -> : count_mem c (mask [seq f == i | f <- tf] s)
        = count_mem (index c cl) (mask [seq f == i | f <- tf] ye).
  rewrite /ye /Sk.y_encoded -map_mask count_map.
  by apply: eq_count => x /=; rewrite index_eq.
have -> : count_mem c s = count_mem (index c cl) (sort leq ye).
  rewrite (permP (permEl (perm_sort leq ye))) /ye /Sk.y_encoded count_map.
  by apply: eq_count => x /=; rewrite index_eq.
rewrite count_mask_swap // al // count_stride_block ?sort_sorted //.
exact: count_residue_bounds.
Qed.

End Balance.

Local Open Scope ring_scope.

(* ================================================================== *)
(* The optimizer's parameter groups, the warm-up and infer             *)
(* ================================================================== *)

Section WeightDecayTheory.

Variable R : realFieldType.
Variable char : eqType.
Variable param : Type.
Variable requires_grad : param -> bool.
Variable shape : param -> seq nat.

Implicit Types (nps : seq (seq char * param)) (skip : seq (seq char)).

Local Notation step := (add_weight_decay_step requires_grad shape).

Lemma add_weight_decay_loop skip nps (acc : seq param * seq param) :
  foldl (step skip) acc nps
  = (acc.1 ++ [seq np.2 | np <- nps & requires_grad np.2 && ~~ exempt shape skip np],
     acc.2 ++ [seq np.2 | np <- nps & requires_grad np.2 && exempt shape skip np]).
Proof.
elim: nps acc => [|np nps IH] [d nd] /=; first by rewrite !cats0.
rewrite IH /add_weight_decay_step.
case: (requires_grad np.2) => //=; case: (exempt shape skip np) => //=.
  by rewrite cat_rcons.
by rewrite cat_rcons.
Qed.

(** X13: add_weight_decay returns two groups: the first holds, in model
    order, the trainable parameters that are one-dimensional or whose name
    contains a skip-list entry, with weight decay 0; the second holds the
    other trainable parameters with the given weight decay; a frozen
    parameter is in neither. *)
Theorem add_weight_decay_groups nps (wd : R) skip :
  add_weight_decay requires_grad shape nps wd skip
  = [:: ParamGroup
          [seq np.2 | np <- nps & requires_grad np.2 && exempt shape skip np] 0;
        ParamGroup
          [seq np.2 | np <- nps & requires_grad np.2 && ~~ exempt shape skip np] wd].
Proof. by rewrite /add_weight_decay add_weight_decay_loop. Qed.

Lemma exempt_redundant skip1 skip2 (s s' : seq char) np :
  str_in s s' -> s \in skip1 ++ skip2 ->
  exempt shape (skip1 ++ s' :: skip2) np = exempt shape (skip1 ++ skip2) np.
Proof.
move=> ss' sin; rewrite /exempt !has_cat /=; congr (_ || _).
rewrite orbCA; case E: (str_in s' np.1) => //=; symmetry.
rewrite -has_cat; apply/hasP; exists s => //.
exact: infix_trans ss' E.
Qed.

(** X14: a skip-list entry that contains another entry of the list changes
    nothing, wherever it stands in the list: add_weight_decay gives the
    same groups without it (as LayerNorm.bias, second in the list of
    configure_optimizers, beside bias). *)
Theorem add_weight_decay_redundant_skip nps (wd : R) skip1 skip2
    (s s' : seq char) :
  str_in s s' -> s \in skip1 ++ skip2 ->
  add_weight_decay requires_grad shape nps wd (skip1 ++ s' :: skip2)
  = add_weight_decay requires_grad shape nps wd (skip1 ++ skip2).
Proof.
move=> ss' sin; rewrite /add_weight_decay !add_weight_decay_loop /=.
have E := exempt_redundant _ ss' sin.
by congr [:: ParamGroup _ _; ParamGroup _ _]; congr map; apply: eq_filter => np;
   rewrite E.
Qed.

End WeightDecayTheory.

Section WarmUpTheory.

Variable R : realFieldType.
Variable T : Type.

(** X15: during the warm-up (global_step < warmup) every parameter group
    gets the learning rate lr * (global_step + 1) / warmup: the min with
    1.0 never binds, the factor is positive and reaches 1 exactly at the
    last warm-up step; the other entries of the groups are kept. *)
Theorem optimizer_step_warmup (hp : hparams R) global_step
    (pgs : seq (R * T)) :
  (global_step < warmup hp)%N ->
  let s := (global_step.+1)%:R / (warmup hp)%:R : R in
  [/\ optimizer_step hp global_step pgs = [seq (s * lr hp, pg.2) | pg <- pgs],
      0 < s <= 1
    & (s == 1) = (global_step.+1 == warmup hp)].
Proof.
move=> ltw /=; rewrite /optimizer_step ltw addn1.
have w0 : (0 : R) < (warmup hp)%:R by rewrite ltr0n (leq_ltn_trans _ ltw).
have s1 : (global_step.+1)%:R / (warmup hp)%:R <= 1 :> R.
  by rewrite ler_pdivrMr // mul1r ler_nat.
split.
- by rewrite min_r.
- by rewrite s1 andbT divr_gt0 // ltr0n.
- by rewrite -(inj_eq (mulIf (lt0r_neq0 w0))) divfK ?lt0r_neq0 // mul1r eqr_nat.
Qed.

End WarmUpTheory.

Section InferTheory.

Variable R : realFieldType.
Variable item : Type.

Lemma batch_sampler_loop bs (done : seq (seq item)) (batch xs : seq item) :
  (size batch < bs)%N ->
  let st := foldl (batch_sampler_step bs) (done, batch) xs in
  flatten st.1 ++ st.2 = flatten done ++ batch ++ xs /\ (size st.2 < bs)%N.
Proof.
elim: xs done batch => [|x xs IH] done batch ltb /=; first by rewrite cats0.
rewrite /batch_sampler_step /= size_rcons.
case: eqP => [E|/eqP ne].
  have [|-> ->] := IH (rcons done (rcons batch x)) [::]; first by rewrite -E.
  by rewrite flatten_rcons /= -catA cat_rcons.
have [|-> ->] := IH done (rcons batch x).
  by rewrite size_rcons ltn_neqAle ne.
by rewrite cat_rcons.
Qed.

Lemma flatten_batch_sampler bs (xs : seq item) :
  (0 < bs)%N -> flatten (batch_sampler bs xs) = xs.
Proof.
move=> bs0; rewrite /batch_sampler.
have [/= E _] := batch_sampler_loop [::] xs (bs0 : (size (@nil item) < bs)%N).
case: ltnP => [_|]; first by rewrite flatten_rcons.
by rewrite leqn0 => /eqP /size0nil E0; rewrite E0 cats0 in E.
Qed.

(** X16: for a positive batch size and a model that maps a batch row by
    row, infer returns the predictions of all rows in dataset order,
    whatever the batch size (a last short batch is kept); on an empty
    dataset it fails in torch.cat. *)
Theorem infer_keeps_rows (f : item -> R)
    (model : seq item -> seq R * option (seq R)) dataset bs :
  (0 < bs)%N -> (forall batch, (model batch).1 = [seq f x | x <- batch]) ->
  infer model dataset bs
  = if dataset is [::] then inl RuntimeError else inr [seq f x | x <- dataset].
Proof.
move=> bs0 rowwise; rewrite /infer eqn0Ngt bs0 /=.
have E := flatten_batch_sampler dataset bs0.
have -> : [seq (model batch).1 | batch <- batch_sampler bs dataset]
        = [seq [seq f x | x <- batch] | batch <- batch_sampler bs dataset].
  exact: eq_map.
have F : [seq f x | x <- dataset]
         = flatten [seq [seq f x | x <- b] | b <- batch_sampler bs dataset].
  by rewrite -map_flatten E.
case: dataset E F => [|x xs] E F; first by rewrite /batch_sampler.
by case: (batch_sampler bs (x :: xs)) E F => [|b bs'] //= _ ->.
Qed.

End InferTheory.

(* ================================================================== *)
(* The validation metrics                                              *)
(* ================================================================== *)

Section ValidationTheory.

Variable R : realFieldType.

Implicit Types (batches : seq (seq R * seq R)) (p y : seq R).

Lemma sum_sq_zip p y :
  size p = size y ->
  \sum_(0 <= k < size y) (nth 0 p k - nth 0 y k) ^+ 2
  = \sum_(q <- zip p y) (q.1 - q.2) ^+ 2.
Proof.
move=> sp; rewrite [RHS](big_nth (0, 0)) size_zip sp minnn.
by apply: eq_big_nat => k /andP [_ ltk]; rewrite nth_zip.
Qed.

Lemma zip_flatten batches :
  all (fun b => size b.1 == size b.2) batches ->
  zip (flatten [seq b.1 | b <- batches]) (flatten [seq b.2 | b <- batches])
  = flatten [seq zip b.1 b.2 | b <- batches].
Proof.
elim: batches => [|b batches IH] //= /andP [/eqP sb /IH <-].
by rewrite zip_cat.
Qed.

Lemma size_flatten_eq batches :
  all (fun b => size b.1 == size b.2) batches ->
  size (flatten [seq b.1 | b <- batches])
  = size (flatten [seq b.2 | b <- batches]).
Proof.
elim: batches => [|b batches IH] //= /andP [/eqP sb /IH E].
by rewrite !size_cat sb E.
Qed.

Lemma mse_times_size p y :
  mse p y * (size y)%:R
  = \sum_(0 <= k < size y) (nth 0 p k - nth 0 y k) ^+ 2.
Proof.
rewrite /mse; case: (posnP (size y)) => [->|y0].
  by rewrite mulr0 big_geq.
by rewrite divfK // pnatr_eq0 -lt0n.
Qed.

Lemma pooled_mse batches :
  all (fun b => size b.1 == size b.2) batches ->
  mse (flatten [seq b.1 | b <- batches]) (flatten [seq b.2 | b <- batches])
  * (\sum_(b <- batches) size b.2)%:R
  = \sum_(b <- batches) (size b.2)%:R * mse b.1 b.2.
Proof.
move=> same.
have -> : (\sum_(b <- batches) size b.2)%N
          = size (flatten [seq b.2 | b <- batches]).
  by rewrite size_flatten sumnE big_map big_map.
rewrite mse_times_size sum_sq_zip ?size_flatten_eq // zip_flatten //.
rewrite big_flatten /= big_map big_seq [RHS]big_seq.
apply: eq_bigr => b /(allP same) /eqP sb.
by rewrite mulrC mse_times_size sum_sq_zip.
Qed.

Lemma validation_epoch_end_some (outs : seq (step_output R)) :
  (0 < size outs)%N ->
  validation_epoch_end outs
  = inr ((\sum_(x <- outs) val_loss x) / (size outs)%:R,
         mse (flatten [seq y_pred x | x <- outs])
             (flatten [seq y_true x | x <- outs])).
Proof. by case: outs. Qed.

Lemma validation_epoch_end_batches batches :
  (0 < size batches)%N ->
  validation_epoch_end [seq validation_step b.1 b.2 | b <- batches]
  = inr ((\sum_(b <- batches) mse b.1 b.2) / (size batches)%:R,
         mse (flatten [seq b.1 | b <- batches])
             (flatten [seq b.2 | b <- batches])).
Proof.
move=> b0; rewrite validation_epoch_end_some ?size_map //.
by rewrite big_map -!map_comp.
Qed.

Lemma sum_const_seq T (s : seq T) B : (\sum_(x <- s) B = size s * B)%N.
Proof. by elim: s => [|x s IH]; rewrite ?big_nil ?big_cons //= IH mulSn. Qed.

(** X17: with kl_loss off, the value under the root of the logged rmse is
    the mean of the batch losses weighted by batch size, while loss/valid
    is their plain mean: the two agree when all batches have as many
    rows. *)
Theorem validation_rmse_pools_rows batches l m :
  all (fun b => size b.1 == size b.2) batches ->
  validation_epoch_end [seq validation_step b.1 b.2 | b <- batches]
  = inr (l, m) ->
  m * (\sum_(b <- batches) size b.2)%:R
  = \sum_(b <- batches) (size b.2)%:R * mse b.1 b.2
  /\ (forall B, (0 < B)%N -> all (fun b => size b.2 == B) batches -> m = l).
Proof.
move=> same; case: (posnP (size batches)) => [/size0nil -> //|b0].
rewrite validation_epoch_end_batches //.
move=> [<- <-]; have P := pooled_mse same; split=> // B B0 sizeB.
have F0 : (size batches)%:R != 0 :> R by rewrite pnatr_eq0 -lt0n.
have B0' : B%:R != 0 :> R by rewrite pnatr_eq0 -lt0n.
have sN : (\sum_(b <- batches) size b.2)%N = (size batches * B)%N.
  have -> : (\sum_(b <- batches) size b.2 = \sum_(b <- batches) B)%N.
    by rewrite big_seq [RHS]big_seq; apply: eq_bigr => b /(allP sizeB) /eqP.
  by rewrite sum_const_seq.
have sR : \sum_(b <- batches) (size b.2)%:R * mse b.1 b.2
          = B%:R * \sum_(b <- batches) mse b.1 b.2 :> R.
  rewrite mulr_sumr big_seq [RHS]big_seq; apply: eq_bigr => b.
  by move/(allP sizeB)/eqP => ->.
move: P; rewrite sN sR natrM => P.
apply: (mulIf B0'); apply: (mulIf F0).
rewrite -mulrA [B%:R * _]mulrC P.
by rewrite mulrAC divfK // mulrC.
Qed.

End ValidationTheory.

(* ================================================================== *)
(* The strata follow the order of the targets                          *)
(* ================================================================== *)

Section StrataOrder.

Variable R : realFieldType.

Implicit Types (y edges : seq R).

Lemma size_bin_edges (mn mx : R) nb : size (Pd.bin_edges mn mx nb) = nb.+1.
Proof.
rewrite /Pd.bin_edges; case: ifP => _; rewrite /Pd.linspace /=.
  by rewrite size_map size_iota.
by rewrite size_map size_iota.
Qed.

Lemma searchsorted_left_mono edges (v v' : R) :
  v <= v' ->
  (Pd.searchsorted_left edges v <= Pd.searchsorted_left edges v')%N.
Proof. by move=> le; apply: sub_count => b /= /lt_le_trans; apply. Qed.

(* the labels of bins_to_cuts when none is NaN *)
Lemma pmap_bins_to_cuts y edges :
  all isSome (Pd.bins_to_cuts y edges) ->
  pmap id (Pd.bins_to_cuts y edges)
  = [seq (Pd.searchsorted_left edges v).-1 | v <- y].
Proof.
rewrite /Pd.bins_to_cuts; elim: y => [|v y IH] //=.
by case: ifP => //= _ /IH ->.
Qed.

Lemma strataE y N :
  (0 < size y)%N ->
  exists edges,
    [/\ size edges = (trunc_log 2 N).+2,
        all isSome (Pd.bins_to_cuts y edges)
      & strata y N = [seq (Pd.searchsorted_left edges v).-1 | v <- y]].
Proof.
move=> y0.
have [bins E] : exists bins, Pd.cut y (trunc_log 2 N).+1 = Ok bins.
  have := cut_ok (ltn0Sn (trunc_log 2 N)) y0.
  by case: (Pd.cut _ _) => // b _; exists b.
have [ab _] := cut_isSome E; rewrite /strata E.
case: y y0 E => // x0 xs _ E0.
pose edges := Pd.bin_edges (foldr Order.min x0 xs) (foldr Order.max x0 xs)
                (trunc_log 2 N).+1.
have E : Pd.bins_to_cuts (x0 :: xs) edges = bins.
  by move: E0; rewrite /Pd.cut ltnS ltn0 => -[].
rewrite -E in ab *; exists edges.
by split; rewrite ?size_bin_edges ?pmap_bins_to_cuts.
Qed.

Lemma leq_pred_mono m n : (m <= n)%N -> (m.-1 <= n.-1)%N.
Proof. by case: m n => [|m] [|n]. Qed.

(** X18: the strata of create_folds follow the targets: a row with a
    larger or equal target never lies in a lower bin, and every bin index
    is below floor(1 + log2 N). *)
Theorem strata_follow_targets y N i j :
  (i < size y)%N -> (j < size y)%N -> nth 0 y i <= nth 0 y j ->
  let s := strata y N in
  (nth 0%N s i <= nth 0%N s j < (trunc_log 2 N).+1)%N.
Proof.
move=> lti ltj le /=.
have [edges [se ab ->]] := strataE N (leq_ltn_trans (leq0n i) lti).
rewrite !(nth_map 0) //; apply/andP; split.
  by rewrite leq_pred_mono // searchsorted_left_mono.
have := allP ab _ (map_f _ (mem_nth 0 ltj)).
move: (count_size (fun b => b < nth 0 y j) edges).
rewrite -/(Pd.searchsorted_left edges (nth 0 y j)) se.
case: (Pd.searchsorted_left _ _) => [|n] //=.
by rewrite leq_eqVlt; case: eqP.
Qed.

End StrataOrder.

(* ------------------------------------------------------------------ *)
(* The statements above at concrete inputs                             *)
(* ------------------------------------------------------------------ *)

(* C1 at one model with one example. *)
Lemma netflix_returns_ridge_solution_witness :
  netflix [:: 1] ex_one_model 1 1
  = Ok (seq_of_col (spec_blend 1 1 [:: 1] ex_one_model 1 1),
        seq_of_col (spec_w 1 1 [:: 1] ex_one_model 1 1)).
Proof.
exact: (@netflix_returns_ridge_solution rat 1 1 [:: 1] ex_one_model 1 1
          erefl erefl isT isT isT).
Defined.

(* C3 at four rows, two folds. *)
Lemma create_folds_partition_witness :
  [/\ size ex_folds4 = 2%N,
      forall p, p \in ex_folds4 ->
        perm_eq (p.1 ++ p.2) (iota 0 (size ex_rows4))
    & perm_eq (flatten (unzip2 ex_folds4)) (iota 0 (size ex_rows4))].
Proof.
apply: (@create_folds_partition reversing_rng rat nat tt ex_rows4 ex_y4 2
          (Some 0%N) ex_folds4 isT).
by vm_compute.
Defined.

(* C4 at no model, at two vectors of lengths 1 and 2, and at one vector
   of length 0. *)
Lemma netflix_input_errors_witness :
  [/\ netflix ([::] : seq rat) [::] 1 1 = Raise IndexError,
      netflix [:: 1; 1] [:: [:: 1]; [:: 1; 2]] (1 : rat) 1 = Raise ValueError
    & netflix [:: 1] [:: [::]] (1 : rat) 1 = Ok ([::], [:: 0])].
Proof.
split.
- by have [h _ _] := @netflix_input_errors rat [::] [::] 1 1; apply: h.
- by have [_ h _] :=
    @netflix_input_errors rat [:: 1; 1] [:: [:: 1]; [:: 1; 2]] 1 1; apply: h.
- by have [_ _ h] := @netflix_input_errors rat [:: 1] [:: [::]] 1 1; apply: h.
Defined.

(* C5 at strata of sizes 3 and 1, and at two strata of size 1. *)
Lemma create_folds_small_strata_witness :
  returns (create_folds (G := reversing_rng) tt ex_rows4 ex_y4 2 (Some 0%N))
  /\ create_folds (G := reversing_rng) tt ex_rows2 ex_y2 2 (Some 0%N)
     = Raise ValueError.
Proof.
split.
- have [h _] := @create_folds_small_strata reversing_rng rat nat tt ex_rows4 ex_y4
                  2 (Some 0%N) erefl isT isT.
  by apply: h; vm_compute.
- have [_ h] := @create_folds_small_strata reversing_rng rat nat tt ex_rows2 ex_y2
                  2 (Some 0%N) erefl isT isT.
  by apply: h; vm_compute.
Defined.

(* C6 at one model with one example. *)
Lemma netflix_weights_duplication_witness :
  exists w, weights (netflix [:: 1] ex_one_model 1 1) = Some w
            /\ weights (netflix [:: 1] (duplicate ex_one_model) 1 1) = Some w.
Proof.
exact: (@netflix_weights_duplication rat 1 1 [:: 1] ex_one_model 1 1
          erefl erefl isT isT isT).
Defined.

(* C7 at p = [1], e0 = 1. *)
Lemma netflix_single_model_limit_witness :
  tends_to_as_lambda_vanishes
    (fun l : rat => oentry 0 (weights (netflix [:: 1] [:: [:: 1]] 1 l))) 2^-1.
Proof.
have nz : \sum_(x <- [:: 1 : rat]) x ^+ 2 != 0.
  by rewrite big_seq1 expr1n oner_eq0.
by have [h _] := @netflix_single_model_limit rat [:: 1] 1 nz.
Defined.

(* C8 at one model with one example. *)
Lemma folds_and_weights_deterministic_witness :
  netflix [:: 1] ex_one_model 1 1 = netflix [:: 1] ex_one_model 1 1.
Proof.
have [_ h] := @folds_and_weights_deterministic reversing_rng rat nat.
exact: (h [:: 1] [:: 1] ex_one_model ex_one_model 1 1 1 1 erefl erefl erefl erefl).
Defined.

(* C9, the weights as solved, at one model with one example. *)
Lemma netflix_weights_unconstrained_witness :
  weights (netflix [:: 1] ex_one_model 1 1)
  = Some (seq_of_col (spec_w 1 1 [:: 1] ex_one_model 1 1)).
Proof.
have [h _] := @netflix_weights_unconstrained rat.
exact: (h 1%N 1%N [:: 1] ex_one_model 1 1 erefl erefl isT isT).
Defined.

(* C10 at one model with two examples, swapped. *)
Lemma netflix_example_order_witness :
  exists out w,
    [/\ netflix [:: 1] [:: [:: 1; 2]] (1 : rat) 1 = Ok (out, w)
      & netflix [:: 1] (reorder [:: 1; 0]%N [:: [:: 1; 2]]) (1 : rat) 1
        = Ok ([seq nth 0 out i | i <- [:: 1; 0]%N], w)].
Proof.
exact: (@netflix_example_order rat 1 2 [:: 1; 0]%N [:: 1] [:: [:: 1; 2]] 1 1
          erefl erefl isT isT isT).
Defined.

(* ------------------------------------------------------------------ *)
(* The further statements at concrete inputs                           *)
(* ------------------------------------------------------------------ *)








(* X5 at three scores for two models. *)
Lemma netflix_score_count_mismatch_witness :
  netflix [:: 1; 1; 1] [:: [:: 1]; [:: 1]] (1 : rat) 1 = Raise ValueError.
Proof.
exact: (@netflix_score_count_mismatch rat 1 [:: 1; 1; 1] [:: [:: 1]; [:: 1]]
          1 1 isT isT isT isT).
Defined.

(* X6 at one score for two models. *)
Lemma netflix_single_score_broadcast_witness :
  let X := spec_X 2 1 [:: [:: 1]; [:: 1 : rat]] in
  let w := pinv_mx (X^T *m X + const_mx ((1 : rat) * 1%:R))
           *m spec_pTy 2 1 (nseq 2 1) [:: [:: 1]; [:: 1]] 1 in
  netflix [:: 1] [:: [:: 1]; [:: 1]] 1 1
  = Ok (seq_of_col (X *m w), seq_of_col w).
Proof.
exact: (@netflix_single_score_broadcast rat 2 1 1 [:: [:: 1]; [:: 1]] 1 1
          erefl isT isT).
Defined.

(* X8 at two models, swapped. *)
Lemma netflix_model_order_witness :
  exists out w,
    [/\ netflix [:: 1; 2] [:: [:: 1]; [:: 2]] (1 : rat) 1 = Ok (out, w)
      & netflix [seq nth 0 [:: 1; 2] i | i <- [:: 1; 0]%N]
          [seq nth [::] [:: [:: 1]; [:: 2]] i | i <- [:: 1; 0]%N] (1 : rat) 1
        = Ok (out, [seq nth 0 w i | i <- [:: 1; 0]%N])].
Proof.
exact: (@netflix_model_order rat 2 1 [:: 1; 0]%N [:: 1; 2]
          [:: [:: 1]; [:: 2]] 1 1 erefl erefl isT isT isT).
Defined.

(* X10 at two tables of four rows. *)
Lemma create_folds_uses_row_count_witness :
  create_folds (G := reversing_rng) tt ex_rows4 ex_y4 2 (Some 0%N)
  = create_folds (G := reversing_rng) tt [:: true; false; true; false]
      ex_y4 2 (Some 0%N).
Proof.
exact: (@create_folds_uses_row_count reversing_rng rat nat bool tt ex_rows4
          [:: true; false; true; false] ex_y4 2 (Some 0%N) erefl).
Defined.

(* X11 at four rows, two folds. *)
Lemma create_folds_fold_sizes_witness :
  let fold := nth ([::], [::]) ex_folds4 0 in
  size fold.2 = (size ex_rows4 %/ 2 + (0 < size ex_rows4 %% 2))%N
  /\ size fold.1 = (size ex_rows4 - size fold.2)%N.
Proof.
apply: (@create_folds_fold_sizes reversing_rng rat nat tt ex_rows4 ex_y4 2
          (Some 0%N) ex_folds4 0 _ isT).
by vm_compute.
Defined.

(* X12 at four rows, two folds, the stratum of bin 0. *)
Lemma create_folds_stratified_witness :
  let s := strata ex_y4 (size ex_rows4) in
  let L := count_mem 0%N s in
  let held :=
    count_mem 0%N [seq nth 0%N s p | p <- (nth ([::], [::]) ex_folds4 0).2] in
  (L %/ 2 <= held <= L %/ 2 + (L %% 2 != 0))%N.
Proof.
apply: (@create_folds_stratified reversing_rng rat nat tt ex_rows4 ex_y4 2
          (Some 0%N) ex_folds4 0 0 _ isT).
by vm_compute.
Defined.

(* X14 at the skip list of configure_optimizers, for a bias vector and a
   weight matrix. *)
Lemma add_weight_decay_redundant_skip_witness :
  add_weight_decay (fun _ : nat => true) (fun p => nseq p 0%N)
    [:: (code_points "encoder.LayerNorm.bias"%string, 1%N);
        (code_points "encoder.dense.weight"%string, 2%N)] (1 : rat)
    configure_optimizers_skip_list
  = add_weight_decay (fun _ : nat => true) (fun p => nseq p 0%N)
      [:: (code_points "encoder.LayerNorm.bias"%string, 1%N);
          (code_points "encoder.dense.weight"%string, 2%N)] (1 : rat)
      [:: code_points "bias"%string; code_points "LayerNorm.weight"%string].
Proof.
exact: (@add_weight_decay_redundant_skip rat nat nat (fun _ => true)
          (fun p => nseq p 0%N)
          [:: (code_points "encoder.LayerNorm.bias"%string, 1%N);
              (code_points "encoder.dense.weight"%string, 2%N)]
          1 [:: code_points "bias"%string]
          [:: code_points "LayerNorm.weight"%string]
          (code_points "bias"%string) (code_points "LayerNorm.bias"%string)
          isT isT).
Defined.

(* X15 at the first of four warm-up steps. *)
Lemma optimizer_step_warmup_witness :
  let hp := HParams (1 : rat) 4 in
  let pgs := [:: (1 : rat, tt)] in
  let s := (1%:R / (warmup hp)%:R : rat) in
  [/\ optimizer_step hp 0 pgs = [seq (s * lr hp, pg.2) | pg <- pgs],
      0 < s <= 1
    & (s == 1) = (1%N == warmup hp)].
Proof.
exact: (@optimizer_step_warmup rat unit (HParams 1 4) 0 [:: (1, tt)] isT).
Defined.

(* X16 at three rows in batches of two. *)
Lemma infer_keeps_rows_witness :
  infer (fun b : seq rat => (b, None)) [:: 1; 2; 3] 2
  = inr [seq id x | x <- [:: 1; 2; 3]].
Proof.
exact: (@infer_keeps_rows rat rat id (fun b => (b, None)) [:: 1; 2; 3] 2 isT
          (fun b => esym (map_id b))).
Defined.

(* X17 at two batches of one row. *)
Lemma validation_rmse_pools_rows_witness :
  let batches := [:: ([:: 1], [:: 0]); ([:: 0], [:: 0 : rat])] in
  let l := (\sum_(b <- batches) mse b.1 b.2) / (size batches)%:R in
  let m := mse (flatten [seq b.1 | b <- batches])
               (flatten [seq b.2 | b <- batches]) in
  m * (\sum_(b <- batches) size b.2)%:R
  = \sum_(b <- batches) (size b.2)%:R * mse b.1 b.2
  /\ (forall B, (0 < B)%N -> all (fun b => size b.2 == B) batches -> m = l).
Proof.
move=> batches l m.
exact: (@validation_rmse_pools_rows rat batches l m isT
          (validation_epoch_end_batches (batches := batches) isT)).
Defined.

(* X18 at the targets 0, 0, 0, 1. *)
Lemma strata_follow_targets_witness :
  let s := strata ex_y4 4 in
  (nth 0%N s 0 <= nth 0%N s 3 < (trunc_log 2 4).+1)%N.
Proof.
apply: (@strata_follow_targets rat ex_y4 4 0 3 isT isT).
by vm_compute.
Defined.
